(** * Parallel cleaning (hotspot/share/gc/shared/parallelCleaning.cpp)
      and basic locks (hotspot/share/runtime/basicLock.hpp)

    A shallow embedding of the parallel cleaning tasks of the HotSpot GC
    and of the interpreter's lock records.

    The gang of workers is a list of program counters over the shared
    task object: worker [i] calls [ParallelCleaningTask::work(i)] once.
    One step of a worker is one atomic access to a shared field (a
    load, a compare-and-exchange, a call of the class iterator) or one
    call into an external subsystem, together with the thread-local
    work that follows it.  An interleaving of the workers is a schedule,
    a list of worker ids, and the properties of a pass are proved for
    every schedule.

    The code cache and the class graph are those of the pause in which
    the pass runs: which methods are alive, and which classes are
    loaded, does not change during the pass.  The calls that the pass
    makes into other subsystems are recorded in a trace. *)

From stdpp Require Import base list.
From Stdlib Require Import ZArith Lia.

(** ** basicLock.hpp *)

(** [markOop] and [oop] are pointers: addresses. *)
Definition markOop := Z.
Definition oop := Z.

Module BasicLock.
Record t := mk { _displaced_header : markOop }.

Definition displaced_header (l : t) : markOop := _displaced_header l.
Definition set_displaced_header (l : t) (header : markOop) : t :=
  {| _displaced_header := header |}.
End BasicLock.

Module BasicObjectLock.
Record t := mk { _lock : BasicLock.t; _obj : oop }.

Definition obj (b : t) : oop := _obj b.
Definition set_obj (b : t) (o : oop) : t :=
  {| _lock := _lock b; _obj := o |}.
Definition lock (b : t) : BasicLock.t := _lock b.
End BasicObjectLock.

(** ** External collaborators of parallelCleaning.cpp *)

(** A [CompiledMethod*] that is not NULL is an address; NULL is [None]. *)
Definition CompiledMethod := nat.

(** A loaded class: its address and the answer of [is_instance_klass()]. *)
Record Klass := mkKlass { klass_addr : nat; is_instance_klass : bool }.

Global Instance Klass_eq_dec : EqDecision Klass.
Proof. solve_decision. Defined.

(** What a pass is given from outside: the build and runtime switches,
    the batch bound, and the two registries that the pass traverses. *)
Record env := mkEnv {
  INCLUDE_JVMCI : bool;              (* the build has JVMCI compiled in *)
  EnableJVMCI : bool;                (* the runtime flag *)
  StringDedup_is_enabled : bool;     (* StringDedup::is_enabled() *)
  MaxClaimNmethods : nat;            (* the constant of parallelCleaning.hpp *)
  (** the alive compiled methods of the code cache, in iteration order *)
  code_cache : list CompiledMethod;
  (** the loaded classes, in the order of the class iterator *)
  class_graph : list Klass
}.

Module Atomic.
(** [Atomic::cmpxchg(exchange_value, dest, compare_value)]: the old
    value of [dest], and [dest] afterwards. *)
Definition cmpxchg {A} `{EqDecision A}
    (exchange_value : A) (dest : A) (compare_value : A) : A * A :=
  (dest, if decide (dest = compare_value) then exchange_value else dest).
End Atomic.

Module CompiledMethodIterator.
(** Modelled from the spec: the iterator is defined in
    code/codeCache.hpp, not in parallelCleaning.cpp.  The registry
    "exposes a first alive unit lookup
    and a next alive unit after X relation"; the iterator stands on a
    method (or on NULL before the first call of [next]) and [next]
    moves it to the following alive method, returning false at the
    end, where [method()] is NULL. *)
Record t := mk { _at_end : bool; _code_blob : option CompiledMethod }.

(** the alive method that follows [nm] in the code cache *)
Fixpoint next_alive (cache : list CompiledMethod) (nm : CompiledMethod)
    : option CompiledMethod :=
  match cache with
  | [] => None
  | x :: rest => if decide (x = nm) then head rest else next_alive rest nm
  end.

(** [CompiledMethodIterator(only_alive, nm)] *)
Definition only_alive (nm : option CompiledMethod) : t :=
  {| _at_end := false; _code_blob := nm |}.

Definition method (it : t) : option CompiledMethod := _code_blob it.

Definition next (cache : list CompiledMethod) (it : t) : bool * t :=
  if _at_end it then (false, it)
  else
    match match _code_blob it with
          | None => head cache
          | Some nm => next_alive cache nm
          end with
    | Some nm' => (true, {| _at_end := false; _code_blob := Some nm' |})
    | None => (false, {| _at_end := true; _code_blob := None |})
    end.
End CompiledMethodIterator.

Module KlassIterator.
(** Modelled from the spec: [ClassLoaderDataGraphKlassIteratorAtomic]
    is defined with the class loader data graph, not in
    parallelCleaning.cpp.  "Each next call returns a
    not-yet-visited class or a sentinel exhausted value; guarantees
    each class is returned to exactly one caller across all workers":
    the iterator holds the classes not yet handed out and [next_klass]
    atomically takes the first of them. *)
Definition t := list Klass.

Definition next_klass (it : t) : option Klass * t :=
  match it with
  | [] => (None, [])
  | k :: rest => (Some k, rest)
  end.
End KlassIterator.

(** ** The observable calls of a pass *)

Inductive gate := KlassTreeGate | JvmciGate.
Inductive subtask := JvmciTask | CodeCacheTask | StringDedupTask | KlassTask.

Global Instance gate_eq_dec : EqDecision gate.
Proof. solve_decision. Defined.
Global Instance subtask_eq_dec : EqDecision subtask.
Proof. solve_decision. Defined.

(** Calls into the external subsystems, and (as history variables) the
    entry of a sub-task's [work] and the calls and returns of the claim
    operations. *)
Inductive event :=
  | EvGcPrologue (resize_table : bool)      (* StringDedup::gc_prologue *)
  | EvGcEpilogue                            (* StringDedup::gc_epilogue *)
  | EvParallelUnlink (worker_id : nat)      (* StringDedup::parallel_unlink *)
  | EvVerifyCleanInlineCaches               (* CodeCache::verify_clean_inline_caches *)
  | EvVerifyIcholderRelocations             (* CodeCache::verify_icholder_relocations *)
  | EvDoUnloading (nm : CompiledMethod) (unloading_occurred : bool)
                                            (* nm->do_unloading *)
  | EvJvmciDoUnloading (unloading_occurred : bool)   (* JVMCI::do_unloading *)
  | EvCleanSubklassTree                     (* Klass::clean_subklass_tree *)
  | EvCleanKlass (k : Klass)                (* clean_klass *)
  | EvWork (t : subtask)                    (* a sub-task's work is entered *)
  | EvClaimNmethods (claimed : list CompiledMethod)  (* claim_nmethods returns *)
  | EvClaimCall (g : gate)                  (* a gate's claim is called *)
  | EvClaimRet (g : gate) (won : bool)      (* a gate's claim returns *)
  | EvNextKlass (k : option Klass).         (* claim_next_klass returns *)

Global Instance event_eq_dec : EqDecision event.
Proof. solve_decision. Defined.

(** The thread that constructs and destroys the task, and the workers. *)
Inductive thread := VMThread | Worker (worker_id : nat).

Global Instance thread_eq_dec : EqDecision thread.
Proof. solve_decision. Defined.

(** ** The tasks *)

Module StringDedupCleaningTask.
(** The task holds only its closure over [is_alive] and [keep_alive],
    which the pass does not look into. *)
Record t := mk { _dedup_closure : unit }.

(** lines 37-46 *)
Definition new (E : env) (resize_table : bool) : t * list event :=
  ({| _dedup_closure := () |},
   if StringDedup_is_enabled E then [EvGcPrologue resize_table] else []).

(** lines 48-52 *)
Definition delete (E : env) (d : t) : list event :=
  if StringDedup_is_enabled E then [EvGcEpilogue] else [].

(** lines 54-58 *)
Definition work (E : env) (d : t) (worker_id : nat) : list event :=
  if StringDedup_is_enabled E then [EvParallelUnlink worker_id] else [].
End StringDedupCleaningTask.

Module CodeCacheUnloadingTask.
Record t := mk {
  _unloading_occurred : bool;
  _num_workers : nat;
  _first_nmethod : option CompiledMethod;
  _claimed_nmethod : option CompiledMethod
}.

(** lines 60-72 *)
Definition new (E : env) (num_workers : nat) (unloading_occurred : bool) : t :=
  let first_nmethod :=
    (* Get first alive nmethod *)
    let iter := CompiledMethodIterator.only_alive None in
    let '(more, iter) := CompiledMethodIterator.next (code_cache E) iter in
    if more then CompiledMethodIterator.method iter else None in
  {| _unloading_occurred := unloading_occurred;
     _num_workers := num_workers;
     _first_nmethod := first_nmethod;
     _claimed_nmethod := first_nmethod |}.

(** lines 74-77 *)
Definition delete (c : t) : list event :=
  [EvVerifyCleanInlineCaches; EvVerifyIcholderRelocations].

(** lines 91-97: the [for] loop with [n] iterations left *)
Fixpoint claim_loop (cache : list CompiledMethod) (n : nat)
    (last : CompiledMethodIterator.t) (claimed_nmethods : list CompiledMethod)
    : list CompiledMethod * CompiledMethodIterator.t :=
  match n with
  | 0 => (claimed_nmethods, last)
  | S n' =>
      let '(more, last') := CompiledMethodIterator.next cache last in
      if more then
        match CompiledMethodIterator.method last' with
        | Some nm => claim_loop cache n' last' (claimed_nmethods ++ [nm])
        | None => (claimed_nmethods, last')  (* next() was true: not NULL *)
        end
      else (claimed_nmethods, last')
  end.

(** lines 84-98: the body of the [do] loop for the value [first] that
    was read from [_claimed_nmethod]; the batch and [last.method()] *)
Definition walk (E : env) (first : option CompiledMethod)
    : list CompiledMethod * option CompiledMethod :=
  let last := CompiledMethodIterator.only_alive first in
  let '(claimed, last) :=
    match first with
    | Some _ => claim_loop (code_cache E) (MaxClaimNmethods E) last []
    | None => ([], last)
    end in
  (claimed, CompiledMethodIterator.method last).

Definition set_claimed_nmethod (c : t) (v : option CompiledMethod) : t :=
  {| _unloading_occurred := _unloading_occurred c;
     _num_workers := _num_workers c;
     _first_nmethod := _first_nmethod c;
     _claimed_nmethod := v |}.

Definition set_first_nmethod (c : t) (v : option CompiledMethod) : t :=
  {| _unloading_occurred := _unloading_occurred c;
     _num_workers := _num_workers c;
     _first_nmethod := v;
     _claimed_nmethod := _claimed_nmethod c |}.

(** lines 79-101, run by one thread without interference: the
    compare-and-exchange succeeds at once, so the [do] loop is left
    after one round, with the batch claimed. *)
Definition claim_nmethods (E : env) (c : t) : list CompiledMethod * t :=
  let first := _claimed_nmethod c in
  let '(claimed_nmethods, last_method) := walk E first in
  let '(_, new) := Atomic.cmpxchg last_method (_claimed_nmethod c) first in
  (claimed_nmethods, set_claimed_nmethod c new).
End CodeCacheUnloadingTask.

Module KlassCleaningTask.
Record t := mk {
  _clean_klass_tree_claimed : Z;
  _klass_iterator : KlassIterator.t
}.

(** lines 126-129 *)
Definition new (E : env) : t :=
  {| _clean_klass_tree_claimed := 0; _klass_iterator := class_graph E |}.

Definition set_clean_klass_tree_claimed (k : t) (v : Z) : t :=
  {| _clean_klass_tree_claimed := v; _klass_iterator := _klass_iterator k |}.

Definition set_klass_iterator (k : t) (it : KlassIterator.t) : t :=
  {| _clean_klass_tree_claimed := _clean_klass_tree_claimed k;
     _klass_iterator := it |}.

(** lines 139-147, run by one thread without interference: the classes
    are pulled until an instance class or the end is met. *)
Fixpoint claim_next_klass (it : KlassIterator.t) : option Klass * KlassIterator.t :=
  match it with
  | [] => (None, [])
  | k :: rest =>
      if is_instance_klass k then (Some k, rest) else claim_next_klass rest
  end.
End KlassCleaningTask.

Module JVMCICleaningTask.
Record t := mk { _cleaning_claimed : Z }.

(** lines 165-167 *)
Definition new : t := {| _cleaning_claimed := 0 |}.
End JVMCICleaningTask.

Module ParallelCleaningTask.
Record t := mk {
  _unloading_occurred : bool;
  _string_dedup_task : StringDedupCleaningTask.t;
  _code_cache_task : CodeCacheUnloadingTask.t;
  _jvmci_cleaning_task : JVMCICleaningTask.t;   (* JVMCI_ONLY *)
  _klass_cleaning_task : KlassCleaningTask.t
}.

(** lines 185-195: the members are constructed in the order of the
    initializer list; only the string dedup task calls out. *)
Definition new (E : env) (num_workers : nat) (unloading_occurred : bool)
    (resize_dedup_table : bool) : t * list event :=
  let '(sd, evs) := StringDedupCleaningTask.new E resize_dedup_table in
  ({| _unloading_occurred := unloading_occurred;
      _string_dedup_task := sd;
      _code_cache_task :=
        CodeCacheUnloadingTask.new E num_workers unloading_occurred;
      _jvmci_cleaning_task := JVMCICleaningTask.new;
      _klass_cleaning_task := KlassCleaningTask.new E |},
   evs).

(** The implicit destructor: the members are destroyed in the reverse
    order of their construction, which is taken to be the order of the
    initializer list of lines 190-194.  The JVMCI and the klass cleaning
    task have nothing to destroy. *)
Definition delete (E : env) (p : t) : list event :=
  CodeCacheUnloadingTask.delete (_code_cache_task p)
  ++ StringDedupCleaningTask.delete E (_string_dedup_task p).

Definition set_code_cache_task (p : t) (c : CodeCacheUnloadingTask.t) : t :=
  {| _unloading_occurred := _unloading_occurred p;
     _string_dedup_task := _string_dedup_task p;
     _code_cache_task := c;
     _jvmci_cleaning_task := _jvmci_cleaning_task p;
     _klass_cleaning_task := _klass_cleaning_task p |}.

Definition set_jvmci_cleaning_task (p : t) (j : JVMCICleaningTask.t) : t :=
  {| _unloading_occurred := _unloading_occurred p;
     _string_dedup_task := _string_dedup_task p;
     _code_cache_task := _code_cache_task p;
     _jvmci_cleaning_task := j;
     _klass_cleaning_task := _klass_cleaning_task p |}.

Definition set_klass_cleaning_task (p : t) (k : KlassCleaningTask.t) : t :=
  {| _unloading_occurred := _unloading_occurred p;
     _string_dedup_task := _string_dedup_task p;
     _code_cache_task := _code_cache_task p;
     _jvmci_cleaning_task := _jvmci_cleaning_task p;
     _klass_cleaning_task := k |}.
End ParallelCleaningTask.

(** ** One worker, one step *)

(** Where a worker stands in [ParallelCleaningTask::work]: before the
    named line of parallelCleaning.cpp, with its live local variables.
    A step ends before the next access to a field that another worker
    can write.  [_first_nmethod] is read and written by worker 0 alone,
    so the test, the call and the store of lines 105-107 make one step;
    the walk of lines 87-98 reads the code cache only, so it goes with
    the load of [_claimed_nmethod] before it. *)
Inductive pc :=
  | L_pct_jvmci            (* 201: _jvmci_cleaning_task.work(...) *)
  | L_jvmci_claim          (* 170: if (_cleaning_claimed) *)
  | L_jvmci_cmpxchg        (* 174: Atomic::cmpxchg(1, &_cleaning_claimed, 0) *)
  | L_jvmci_do_unloading   (* 180: JVMCI::do_unloading(...) *)
  | L_pct_code_cache       (* 204: _code_cache_task.work(worker_id) *)
  | L_cc_claim             (* 84-98: first = _claimed_nmethod, and the walk *)
  | L_cc_cmpxchg (first : option CompiledMethod)
                 (claimed_nmethods : list CompiledMethod)
                 (last_method : option CompiledMethod)
                           (* 100: Atomic::cmpxchg(last.method(), ...) *)
  | L_cc_unload (claimed_nmethods : list CompiledMethod)
                           (* 120-122: the methods still to unload *)
  | L_pct_string_dedup     (* 207: _string_dedup_task.work(worker_id) *)
  | L_pct_klass            (* 212: if (_unloading_occurred) *)
  | L_klass_claim          (* 132: if (_clean_klass_tree_claimed) *)
  | L_klass_cmpxchg        (* 136: Atomic::cmpxchg(1, &_clean_klass_tree_claimed, 0) *)
  | L_klass_tree           (* 154: Klass::clean_subklass_tree() *)
  | L_klass_next           (* 142: klass = _klass_iterator.next_klass() *)
  | L_klass_clean (k : Klass)   (* 160: clean_klass(klass) *)
  | L_done.                (* returned from ParallelCleaningTask::work *)

Global Instance pc_eq_dec : EqDecision pc.
Proof. solve_decision. Defined.

(** Line 198: where [work] begins; [JVMCI_ONLY(...)] is compiled away
    when [INCLUDE_JVMCI] is off. *)
Definition work_entry (E : env) : pc :=
  if INCLUDE_JVMCI E then L_pct_jvmci else L_pct_code_cache.

(** One atomic step of worker [worker_id] standing at [l]: the task
    afterwards, where the worker stands then, and the calls it made. *)
Definition exec (E : env) (worker_id : nat) (l : pc) (p : ParallelCleaningTask.t)
    : ParallelCleaningTask.t * pc * list event :=
  let cc := ParallelCleaningTask._code_cache_task p in
  let jv := ParallelCleaningTask._jvmci_cleaning_task p in
  let kl := ParallelCleaningTask._klass_cleaning_task p in
  match l with
  (* JVMCICleaningTask::work, lines 177-182 *)
  | L_pct_jvmci =>
      (p,
       if ParallelCleaningTask._unloading_occurred p && EnableJVMCI E
       then L_jvmci_claim else L_pct_code_cache,
       [EvWork JvmciTask])
  | L_jvmci_claim =>
      if decide (JVMCICleaningTask._cleaning_claimed jv ≠ 0%Z)
      then (p, L_pct_code_cache, [EvClaimCall JvmciGate; EvClaimRet JvmciGate false])
      else (p, L_jvmci_cmpxchg, [EvClaimCall JvmciGate])
  | L_jvmci_cmpxchg =>
      let '(old, new) :=
        Atomic.cmpxchg 1%Z (JVMCICleaningTask._cleaning_claimed jv) 0%Z in
      let won := bool_decide (old = 0%Z) in
      (ParallelCleaningTask.set_jvmci_cleaning_task p
         {| JVMCICleaningTask._cleaning_claimed := new |},
       if won then L_jvmci_do_unloading else L_pct_code_cache,
       [EvClaimRet JvmciGate won])
  | L_jvmci_do_unloading =>
      (p, L_pct_code_cache,
       [EvJvmciDoUnloading (ParallelCleaningTask._unloading_occurred p)])
  (* CodeCacheUnloadingTask::work, lines 103-124 *)
  | L_pct_code_cache =>
      match worker_id, CodeCacheUnloadingTask._first_nmethod cc with
      | 0, Some first_nmethod =>
          (ParallelCleaningTask.set_code_cache_task p
             (CodeCacheUnloadingTask.set_first_nmethod cc None),
           L_cc_claim,
           [EvWork CodeCacheTask;
            EvDoUnloading first_nmethod
              (CodeCacheUnloadingTask._unloading_occurred cc)])
      | _, _ => (p, L_cc_claim, [EvWork CodeCacheTask])
      end
  | L_cc_claim =>
      let first := CodeCacheUnloadingTask._claimed_nmethod cc in
      let '(claimed, last_method) := CodeCacheUnloadingTask.walk E first in
      (p, L_cc_cmpxchg first claimed last_method, [])
  | L_cc_cmpxchg first claimed last_method =>
      let '(old, new) :=
        Atomic.cmpxchg last_method
          (CodeCacheUnloadingTask._claimed_nmethod cc) first in
      if decide (old = first) then
        (ParallelCleaningTask.set_code_cache_task p
           (CodeCacheUnloadingTask.set_claimed_nmethod cc new),
         match claimed with
         | [] => L_pct_string_dedup
         | _ :: _ => L_cc_unload claimed
         end,
         [EvClaimNmethods claimed])
      else
        (ParallelCleaningTask.set_code_cache_task p
           (CodeCacheUnloadingTask.set_claimed_nmethod cc new),
         L_cc_claim, [])
  | L_cc_unload claimed =>
      match claimed with
      | [] => (p, L_cc_claim, [])
      | nm :: rest =>
          (p, L_cc_unload rest,
           [EvDoUnloading nm (CodeCacheUnloadingTask._unloading_occurred cc)])
      end
  (* StringDedupCleaningTask::work, lines 54-58 *)
  | L_pct_string_dedup =>
      (p, L_pct_klass,
       EvWork StringDedupTask
       :: StringDedupCleaningTask.work E
            (ParallelCleaningTask._string_dedup_task p) worker_id)
  (* lines 212-214 and KlassCleaningTask::work, lines 149-162 *)
  | L_pct_klass =>
      if ParallelCleaningTask._unloading_occurred p
      then (p, L_klass_claim, [EvWork KlassTask])
      else (p, L_done, [])
  | L_klass_claim =>
      if decide (KlassCleaningTask._clean_klass_tree_claimed kl ≠ 0%Z)
      then (p, L_klass_next,
            [EvClaimCall KlassTreeGate; EvClaimRet KlassTreeGate false])
      else (p, L_klass_cmpxchg, [EvClaimCall KlassTreeGate])
  | L_klass_cmpxchg =>
      let '(old, new) :=
        Atomic.cmpxchg 1%Z (KlassCleaningTask._clean_klass_tree_claimed kl) 0%Z in
      let won := bool_decide (old = 0%Z) in
      (ParallelCleaningTask.set_klass_cleaning_task p
         (KlassCleaningTask.set_clean_klass_tree_claimed kl new),
       if won then L_klass_tree else L_klass_next,
       [EvClaimRet KlassTreeGate won])
  | L_klass_tree => (p, L_klass_next, [EvCleanSubklassTree])
  | L_klass_next =>
      let '(klass, it) :=
        KlassIterator.next_klass (KlassCleaningTask._klass_iterator kl) in
      let p' := ParallelCleaningTask.set_klass_cleaning_task p
                  (KlassCleaningTask.set_klass_iterator kl it) in
      match klass with
      | None => (p', L_done, [EvNextKlass None])
      | Some k =>
          if is_instance_klass k
          then (p', L_klass_clean k, [EvNextKlass (Some k)])
          else (p', L_klass_next, [])
      end
  | L_klass_clean k => (p, L_klass_next, [EvCleanKlass k])
  | L_done => (p, L_done, [])
  end.

(** ** The gang *)

Record state := mkState {
  task : ParallelCleaningTask.t;
  pcs : list pc;                    (* worker [i] stands at [pcs !! i] *)
  trace : list (thread * event)     (* the calls so far, oldest first *)
}.

(** The task is constructed by the VM thread; worker [i] of the
    [num_workers] workers is about to call [work(i)]. *)
Definition init (E : env) (num_workers : nat) (unloading_occurred : bool)
    (resize_dedup_table : bool) : state :=
  let '(p, evs) :=
    ParallelCleaningTask.new E num_workers unloading_occurred resize_dedup_table in
  {| task := p;
     pcs := replicate num_workers (work_entry E);
     trace := (λ e, (VMThread, e)) <$> evs |}.

(** The scheduler lets worker [w] make its next step; a worker that has
    returned, or that does not exist, makes none. *)
Definition step (E : env) (w : nat) (s : state) : state :=
  match pcs s !! w with
  | None => s
  | Some l =>
      let '(p, l', evs) := exec E w l (task s) in
      {| task := p;
         pcs := <[w := l']> (pcs s);
         trace := trace s ++ ((λ e, (Worker w, e)) <$> evs) |}
  end.

Definition run (E : env) (sched : list nat) (s : state) : state :=
  foldl (λ s w, step E w s) s sched.

(** After the gang has joined the task is destroyed by the VM thread. *)
Definition finish (E : env) (s : state) : state :=
  {| task := task s;
     pcs := pcs s;
     trace := trace s ++ ((λ e, (VMThread, e)) <$> ParallelCleaningTask.delete E (task s)) |}.

Definition returned (l : pc) : bool :=
  match l with L_done => true | _ => false end.

(** the worker has returned from [CodeCacheUnloadingTask::work] *)
Definition cc_returned (l : pc) : bool :=
  match l with
  | L_pct_string_dedup | L_pct_klass | L_klass_claim | L_klass_cmpxchg
  | L_klass_tree | L_klass_next | L_klass_clean _ | L_done => true
  | _ => false
  end.

Definition all_returned (s : state) : bool := forallb returned (pcs s).
Definition all_cc_returned (s : state) : bool := forallb cc_returned (pcs s).

(** ** Reading a trace *)

(** the calls of one thread, oldest first *)
Definition events_of (t : thread) (tr : list (thread * event)) : list event :=
  omap (λ te, if decide (te.1 = t) then Some te.2 else None) tr.

(** a weighted count over a list: of events, or of workers by where they stand *)
Definition total {A} (f : A → nat) (l : list A) : nat := sum_list_with f l.

(** weight one on the event [e0] *)
Definition is_ev (e0 : event) (e : event) : nat :=
  if decide (e = e0) then 1 else 0.

Definition calls (g : gate) (h : list event) : nat := total (is_ev (EvClaimCall g)) h.
Definition wins (g : gate) (h : list event) : nat := total (is_ev (EvClaimRet g true)) h.
Definition losses (g : gate) (h : list event) : nat := total (is_ev (EvClaimRet g false)) h.

(** the methods given to [do_unloading], in the order of the calls *)
Definition unloaded (h : list event) : list CompiledMethod :=
  omap (λ e, match e with EvDoUnloading nm _ => Some nm | _ => None end) h.

(** the batches returned by [claim_nmethods], in the order of the returns *)
Definition batches (h : list event) : list (list CompiledMethod) :=
  omap (λ e, match e with EvClaimNmethods b => Some b | _ => None end) h.

(** the classes returned by [claim_next_klass] (NULL returns left out) *)
Definition claimed_klasses (h : list event) : list Klass :=
  omap (λ e, match e with EvNextKlass (Some k) => Some k | _ => None end) h.

(** the classes given to [clean_klass] *)
Definition cleaned (h : list event) : list Klass :=
  omap (λ e, match e with EvCleanKlass k => Some k | _ => None end) h.

(** the sub-tasks entered, in order *)
Definition works (h : list event) : list subtask :=
  omap (λ e, match e with EvWork t => Some t | _ => None end) h.

(** how often [x] occurs in [l] *)
Definition occurrences {A} `{EqDecision A} (x : A) (l : list A) : nat :=
  length (filter (λ y, y = x) l).

(** ** What holds of every worker's program counter *)

(** The single-claim gate that a pass with these switches uses. *)
Definition gate_used (E : env) (unloading_occurred : bool) (g : gate) : bool :=
  match g with
  | KlassTreeGate => unloading_occurred
  | JvmciGate => INCLUDE_JVMCI E && unloading_occurred && EnableJVMCI E
  end.

(** Where a worker can stand at all, and what its locals then hold. *)
Definition pc_ok (E : env) (unloading_occurred : bool) (l : pc) : Prop :=
  match l with
  | L_pct_jvmci => INCLUDE_JVMCI E = true
  | L_jvmci_claim | L_jvmci_cmpxchg | L_jvmci_do_unloading =>
      gate_used E unloading_occurred JvmciGate = true
  | L_cc_cmpxchg first claimed last_method =>
      CodeCacheUnloadingTask.walk E first = (claimed, last_method)
  | L_klass_claim | L_klass_cmpxchg | L_klass_tree | L_klass_next
  | L_klass_clean _ => unloading_occurred = true
  | _ => True
  end.

(** The fields that no worker writes. *)
Definition task_ok (unloading_occurred : bool) (p : ParallelCleaningTask.t) : Prop :=
  ParallelCleaningTask._unloading_occurred p = unloading_occurred
  ∧ CodeCacheUnloadingTask._unloading_occurred
      (ParallelCleaningTask._code_cache_task p) = unloading_occurred.

(** A state that some schedule leads to. *)
Definition reachable (E : env) (num_workers : nat) (unloading_occurred : bool)
    (resize_dedup_table : bool) (s : state) : Prop :=
  ∃ sched, s = run E sched (init E num_workers unloading_occurred resize_dedup_table).

(** ** The cursor of the code cache task *)

(** the methods of the cache up to [nm], [nm] included *)
Fixpoint upto (cache : list CompiledMethod) (nm : CompiledMethod)
    : list CompiledMethod :=
  match cache with
  | [] => []
  | x :: rest => if decide (x = nm) then [x] else x :: upto rest nm
  end.

(** the methods at or before the cursor; all of them once it is NULL *)
Definition passed (cache : list CompiledMethod) (cursor : option CompiledMethod)
    : list CompiledMethod :=
  match cursor with
  | Some nm => upto cache nm
  | None => cache
  end.

(** the claimed methods that a worker has still to unload *)
Definition pending (l : pc) : list CompiledMethod :=
  match l with
  | L_cc_unload claimed => claimed
  | _ => []
  end.

(** the first method once worker 0 has unloaded it *)
Definition first_done (cache : list CompiledMethod)
    (first_nmethod : option CompiledMethod) : list CompiledMethod :=
  match first_nmethod with
  | None => option_list (head cache)
  | Some _ => []
  end.

(** the worker is past line 105 of [CodeCacheUnloadingTask::work] *)
Definition cc_entered (l : pc) : bool :=
  match l with
  | L_pct_jvmci | L_jvmci_claim | L_jvmci_cmpxchg | L_jvmci_do_unloading
  | L_pct_code_cache => false
  | _ => true
  end.

(** the claimed methods that the workers have still to unload *)
Definition holding (pcs : list pc) : list CompiledMethod := pcs ≫= pending.

(** What the cursor, the first method and the history have to do with
    each other in every state of a pass. *)
Record cc_inv (E : env) (s : state) : Prop := {
  (** the cursor is NULL or a method of the cache *)
  cc_cursor : ∀ nm,
    CodeCacheUnloadingTask._claimed_nmethod
      (ParallelCleaningTask._code_cache_task (task s)) = Some nm →
    nm ∈ code_cache E;
  (** [_first_nmethod] is the first alive method until worker 0 clears it *)
  cc_first_head : ∀ nm,
    CodeCacheUnloadingTask._first_nmethod
      (ParallelCleaningTask._code_cache_task (task s)) = Some nm →
    head (code_cache E) = Some nm;
  cc_first_cleared : ∀ l,
    pcs s !! 0 = Some l → cc_entered l = true →
    CodeCacheUnloadingTask._first_nmethod
      (ParallelCleaningTask._code_cache_task (task s)) = None;
  (** the batches returned so far are, in order, the methods between the
      first one and the cursor *)
  cc_batches :
    mjoin (batches (trace s).*2)
    = tail (passed (code_cache E)
              (CodeCacheUnloadingTask._claimed_nmethod
                 (ParallelCleaningTask._code_cache_task (task s))));
  cc_sizes :
    Forall (λ b, length b ≤ MaxClaimNmethods E) (batches (trace s).*2);
  (** the methods unloaded or held for unloading are those claimed and,
      once worker 0 has been there, the first one *)
  cc_unloaded :
    unloaded (trace s).*2 ++ holding (pcs s)
    ≡ₚ first_done (code_cache E)
         (CodeCacheUnloadingTask._first_nmethod
            (ParallelCleaningTask._code_cache_task (task s)))
       ++ tail (passed (code_cache E)
                  (CodeCacheUnloadingTask._claimed_nmethod
                     (ParallelCleaningTask._code_cache_task (task s))));
  (** an empty batch is returned, and a worker leaves, only at the end *)
  cc_end_pc : ∀ l,
    l ∈ pcs s → cc_returned l = true →
    CodeCacheUnloadingTask._claimed_nmethod
      (ParallelCleaningTask._code_cache_task (task s)) = None;
  cc_end_batch :
    [] ∈ batches (trace s).*2 →
    CodeCacheUnloadingTask._claimed_nmethod
      (ParallelCleaningTask._code_cache_task (task s)) = None
}.

(** ** Classes *)

(** the instance classes among [ks], in order *)
Definition instances (ks : list Klass) : list Klass :=
  filter (λ k, is_instance_klass k = true) ks.

(** the class that a worker is about to clean *)
Definition cleaning (l : pc) : list Klass :=
  match l with
  | L_klass_clean k => [k]
  | _ => []
  end.

(** the sub-task on whose behalf a call is made *)
Definition subtask_of (e : event) : option subtask :=
  match e with
  | EvWork t => Some t
  | EvClaimCall JvmciGate | EvClaimRet JvmciGate _ | EvJvmciDoUnloading _ =>
      Some JvmciTask
  | EvDoUnloading _ _ | EvClaimNmethods _ => Some CodeCacheTask
  | EvParallelUnlink _ => Some StringDedupTask
  | EvClaimCall KlassTreeGate | EvClaimRet KlassTreeGate _
  | EvCleanSubklassTree | EvNextKlass _ | EvCleanKlass _ => Some KlassTask
  | EvGcPrologue _ | EvGcEpilogue
  | EvVerifyCleanInlineCaches | EvVerifyIcholderRelocations => None
  end.

(** What the class iterator and the history have to do with each other
    in every state of a pass. *)
Record klass_inv (E : env) (unloading_occurred : bool) (s : state) : Prop := {
  (** the classes returned so far and the instance classes still in the
      iterator are, in order, the instance classes of the class graph *)
  kl_claimed :
    claimed_klasses (trace s).*2
    ++ instances (KlassCleaningTask._klass_iterator
                    (ParallelCleaningTask._klass_cleaning_task (task s)))
    = instances (class_graph E);
  (** the classes cleaned or about to be cleaned are those returned *)
  kl_cleaned :
    cleaned (trace s).*2 ++ (pcs s ≫= cleaning) ≡ₚ claimed_klasses (trace s).*2;
  (** a worker of a pass with unloading leaves only when the iterator is
      exhausted *)
  kl_end : ∀ l,
    l ∈ pcs s → l = L_done → unloading_occurred = true →
    KlassCleaningTask._klass_iterator
      (ParallelCleaningTask._klass_cleaning_task (task s)) = [];
  (** without unloading the klass cleaning task is never touched *)
  kl_idle :
    unloading_occurred = false →
    ParallelCleaningTask._klass_cleaning_task (task s) = KlassCleaningTask.new E
    ∧ Forall (λ e, subtask_of e ≠ Some KlassTask) (trace s).*2
}.

(** ** Single-claim gates *)

(** the flag of a gate *)
Definition flag (g : gate) (p : ParallelCleaningTask.t) : Z :=
  match g with
  | KlassTreeGate =>
      KlassCleaningTask._clean_klass_tree_claimed
        (ParallelCleaningTask._klass_cleaning_task p)
  | JvmciGate =>
      JVMCICleaningTask._cleaning_claimed
        (ParallelCleaningTask._jvmci_cleaning_task p)
  end.

(** the worker is inside the claim of [g]: it has seen the flag clear
    and stands before the compare-and-exchange *)
Definition at_cmpxchg (g : gate) (l : pc) : nat :=
  match g, l with
  | JvmciGate, L_jvmci_cmpxchg => 1
  | KlassTreeGate, L_klass_cmpxchg => 1
  | _, _ => 0
  end.

(** the worker has called the claim of [g] *)
Definition called (E : env) (unloading_occurred : bool) (g : gate) (l : pc) : nat :=
  match g, l with
  | JvmciGate, (L_pct_jvmci | L_jvmci_claim) => 0
  | KlassTreeGate, (L_klass_cmpxchg | L_klass_tree | L_klass_next
                    | L_klass_clean _ | L_done) =>
      if gate_used E unloading_occurred KlassTreeGate then 1 else 0
  | KlassTreeGate, _ => 0
  | JvmciGate, _ => if gate_used E unloading_occurred JvmciGate then 1 else 0
  end.

(** weight one on the workers that stand at [l0] *)
Definition at_pc (l0 : pc) (l : pc) : nat :=
  if decide (l = l0) then 1 else 0.

(** the arguments of the calls of [JVMCI::do_unloading] *)
Definition jvmci_unloadings (h : list event) : list bool :=
  omap (λ e, match e with EvJvmciDoUnloading b => Some b | _ => None end) h.

(** weight one on the calls of [JVMCI::do_unloading] *)
Definition is_jvmci_do_unloading (e : event) : nat :=
  match e with EvJvmciDoUnloading _ => 1 | _ => 0 end.

(** ** String deduplication *)

(** a call into the string deduplication subsystem *)
Definition dedup_event (e : event) : bool :=
  match e with
  | EvGcPrologue _ | EvGcEpilogue | EvParallelUnlink _ => true
  | _ => false
  end.

(** the worker has returned from [StringDedupCleaningTask::work] *)
Definition dedup_returned (l : pc) : bool :=
  match l with
  | L_pct_klass | L_klass_claim | L_klass_cmpxchg | L_klass_tree
  | L_klass_next | L_klass_clean _ | L_done => true
  | _ => false
  end.

(** the arguments of the calls of [StringDedup::gc_prologue] *)
Definition prologues (h : list event) : list bool :=
  omap (λ e, match e with EvGcPrologue r => Some r | _ => None end) h.

(** the arguments of the calls of [StringDedup::parallel_unlink] *)
Definition unlinks (h : list event) : list nat :=
  omap (λ e, match e with EvParallelUnlink w => Some w | _ => None end) h.

(** ** The order of the sub-tasks *)

(** the sub-tasks that a worker standing at [l] has entered, in order *)
Definition entered (E : env) (unloading_occurred : bool) (l : pc) : list subtask :=
  let jvmci := if INCLUDE_JVMCI E then [JvmciTask] else [] in
  match l with
  | L_pct_jvmci => []
  | L_jvmci_claim | L_jvmci_cmpxchg | L_jvmci_do_unloading => [JvmciTask]
  | L_pct_code_cache => jvmci
  | L_cc_claim | L_cc_cmpxchg _ _ _ | L_cc_unload _ | L_pct_string_dedup =>
      jvmci ++ [CodeCacheTask]
  | L_pct_klass => jvmci ++ [CodeCacheTask; StringDedupTask]
  | L_klass_claim | L_klass_cmpxchg | L_klass_tree | L_klass_next
  | L_klass_clean _ => jvmci ++ [CodeCacheTask; StringDedupTask; KlassTask]
  | L_done =>
      jvmci ++ [CodeCacheTask; StringDedupTask]
      ++ (if unloading_occurred then [KlassTask] else [])
  end.

(** Every call of [h] is the entry of a sub-task or is made on behalf of
    the sub-task of the call before it ([cur] for the first call): the
    calls of a sub-task lie between its entry and the next entry. *)
Fixpoint segmented (cur : option subtask) (h : list event) : Prop :=
  match h with
  | [] => True
  | e :: h' =>
      (subtask_of e = cur ∨ ∃ t, e = EvWork t) ∧ segmented (subtask_of e) h'
  end.

(** the sub-task of the last call of [h] *)
Definition last_task (h : list event) : option subtask :=
  last h ≫= subtask_of.

(** ** What a worker does in the code cache task *)

(** the calls of [do_unloading] and the returns of [claim_nmethods] *)
Definition cc_calls (h : list event) : list event :=
  omap (λ e, match e with
             | EvDoUnloading _ _ | EvClaimNmethods _ => Some e
             | _ => None
             end) h.

(** [claim_nmethods] returns a batch and its methods are unloaded in
    order, batch after batch *)
Definition script (unloading_occurred : bool) (bs : list (list CompiledMethod))
    : list event :=
  bs ≫= λ b, EvClaimNmethods b :: ((λ nm, EvDoUnloading nm unloading_occurred) <$> b).

(** worker 0 unloads the first alive method, if there is one, itself *)
Definition first_call (E : env) (unloading_occurred : bool) (worker_id : nat)
    : list event :=
  match worker_id, head (code_cache E) with
  | 0, Some nm => [EvDoUnloading nm unloading_occurred]
  | _, _ => []
  end.

(** What a worker standing at [l] has called in the code cache task:
    nothing before it enters; then, for worker 0, the unloading of the
    first method, and for every worker rounds of claiming a batch that
    is not empty and unloading its methods, of which those of [pending]
    are still to come; and at last a claim that returned no method. *)
Definition cc_shape (E : env) (unloading_occurred : bool) (worker_id : nat)
    (l : pc) (h : list event) : Prop :=
  if cc_entered l then
    ∃ bs, Forall (λ b, b ≠ []) bs
          ∧ cc_calls h ++ ((λ nm, EvDoUnloading nm unloading_occurred) <$> pending l)
            = first_call E unloading_occurred worker_id
              ++ script unloading_occurred bs
              ++ (if cc_returned l then [EvClaimNmethods []] else [])
  else cc_calls h = [].

(** the calls of the claim of [g] that have not returned *)
Definition claim_pending (g : gate) (s : state) : nat :=
  total (at_cmpxchg g) (pcs s).

(** ** A pass, and passes to try things on *)

(** the state after the workers have made the steps of [sched] *)
Definition after (E : env) (num_workers : nat) (unloading_occurred : bool)
    (resize_dedup_table : bool) (sched : list nat) : state :=
  run E sched (init E num_workers unloading_occurred resize_dedup_table).

(** A whole pass: the task is constructed, the workers make the steps of
    [sched], and the task is destroyed. *)
Definition pass (E : env) (num_workers : nat) (unloading_occurred : bool)
    (resize_dedup_table : bool) (sched : list nat) : state :=
  finish E (after E num_workers unloading_occurred resize_dedup_table sched).

(** each of [n] workers in turn, [rounds] times over *)
Definition round_robin (n rounds : nat) : list nat :=
  mjoin (replicate rounds (seq 0 n)).

(** four workers, ten alive methods claimed in batches of at most four,
    three classes of which one is an array class, every switch on *)
Definition env_ex : env :=
  {| INCLUDE_JVMCI := true; EnableJVMCI := true;
     StringDedup_is_enabled := true; MaxClaimNmethods := 4;
     code_cache := seq 0 10;
     class_graph := [mkKlass 1 true; mkKlass 2 false; mkKlass 3 true] |}.

(** the same with batches of at most three: the alive methods after
    the first one fill three batches, and the cursor comes to stand on
    the last method *)
Definition env_three : env :=
  {| INCLUDE_JVMCI := true; EnableJVMCI := true;
     StringDedup_is_enabled := true; MaxClaimNmethods := 3;
     code_cache := seq 0 10;
     class_graph := [mkKlass 1 true; mkKlass 2 false; mkKlass 3 true] |}.

(** the same with a batch bound of zero *)
Definition env_zero : env :=
  {| INCLUDE_JVMCI := true; EnableJVMCI := true;
     StringDedup_is_enabled := true; MaxClaimNmethods := 0;
     code_cache := seq 0 10;
     class_graph := [mkKlass 1 true; mkKlass 2 false; mkKlass 3 true] |}.

(** ** Progress *)

(** how often the cursor can still move: once for every alive method
    behind it, and once more to NULL *)
Definition remaining (cache : list CompiledMethod)
    (cursor : option CompiledMethod) : nat :=
  length cache - length (passed cache cursor)
  + match cursor with Some _ => 1 | None => 0 end.

(** How many steps a worker standing at [l] is from returning, not
    counting the rounds of claiming and cleaning that the cursor and the
    class iterator account for.  A worker whose compare-and-exchange
    will fail is further away than one that is about to read the
    cursor. *)
Definition potential (cursor : option CompiledMethod) (l : pc) : nat :=
  match l with
  | L_done => 0
  | L_klass_next => 1
  | L_klass_clean _ | L_klass_tree => 2
  | L_klass_cmpxchg => 3
  | L_klass_claim => 4
  | L_pct_klass => 5
  | L_pct_string_dedup => 6
  | L_cc_cmpxchg first _ _ => if decide (cursor = first) then 7 else 9
  | L_cc_claim => 8
  | L_cc_unload claimed => 9 + length claimed
  | L_pct_code_cache => 9
  | L_jvmci_do_unloading => 10
  | L_jvmci_cmpxchg => 11
  | L_jvmci_claim => 12
  | L_pct_jvmci => 13
  end.

(** A bound on the steps that the workers of [s] can still make. *)
Definition measure (E : env) (s : state) : nat :=
  let cursor :=
    CodeCacheUnloadingTask._claimed_nmethod
      (ParallelCleaningTask._code_cache_task (task s)) in
  (2 * length (pcs s) + 4) * remaining (code_cache E) cursor
  + 2 * length (KlassCleaningTask._klass_iterator
                  (ParallelCleaningTask._klass_cleaning_task (task s)))
  + total (potential cursor) (pcs s).

(** ** How the shared fields move *)

(** The shared fields of [s'] lie ahead of those of [s]: the cursor has
    passed at least the methods it had passed, NULL stays NULL in
    [_claimed_nmethod] and [_first_nmethod], a flag that was set is
    set, the class iterator has only handed out classes, the fields
    that the constructor set stay, and the trace has only grown. *)
Record advanced (E : env) (s s' : state) : Prop := {
  adv_cursor :
    passed (code_cache E)
      (CodeCacheUnloadingTask._claimed_nmethod
         (ParallelCleaningTask._code_cache_task (task s)))
    `prefix_of`
    passed (code_cache E)
      (CodeCacheUnloadingTask._claimed_nmethod
         (ParallelCleaningTask._code_cache_task (task s')));
  adv_cursor_null :
    CodeCacheUnloadingTask._claimed_nmethod
      (ParallelCleaningTask._code_cache_task (task s)) = None →
    CodeCacheUnloadingTask._claimed_nmethod
      (ParallelCleaningTask._code_cache_task (task s')) = None;
  adv_first_null :
    CodeCacheUnloadingTask._first_nmethod
      (ParallelCleaningTask._code_cache_task (task s)) = None →
    CodeCacheUnloadingTask._first_nmethod
      (ParallelCleaningTask._code_cache_task (task s')) = None;
  adv_flag : ∀ g, (flag g (task s) ≤ flag g (task s'))%Z;
  adv_iterator :
    KlassCleaningTask._klass_iterator
      (ParallelCleaningTask._klass_cleaning_task (task s'))
    `suffix_of`
    KlassCleaningTask._klass_iterator
      (ParallelCleaningTask._klass_cleaning_task (task s));
  adv_trace : trace s `prefix_of` trace s';
  adv_workers : length (pcs s') = length (pcs s)
}.

(** ** Counting batches and steps *)

(** the batches returned by [claim_nmethods] that hold a method *)
Definition claimed_batches (h : list event) : list (list CompiledMethod) :=
  filter (λ b, b ≠ []) (batches h).

(** weight one on the workers that have returned from
    [CodeCacheUnloadingTask::work] *)
Definition cc_left (l : pc) : nat := if cc_returned l then 1 else 0.

(** how many steps of [sched] are steps of a worker that has not
    returned, from the state [s] on *)
Fixpoint effective (E : env) (sched : list nat) (s : state) : nat :=
  match sched with
  | [] => 0
  | w :: sched' =>
      match pcs s !! w with
      | Some l => if returned l then 0 else 1
      | None => 0
      end + effective E sched' (step E w s)
  end.

(** ** What a worker does in the klass cleaning task *)

(** the calls of the klass cleaning task *)
Definition klass_calls (h : list event) : list event :=
  filter (λ e, subtask_of e = Some KlassTask) h.

(** [work] is entered and the claim of the subklass tree is called; the
    winner cleans the tree *)
Definition klass_opening (won : bool) : list event :=
  [EvWork KlassTask; EvClaimCall KlassTreeGate; EvClaimRet KlassTreeGate won]
  ++ (if won then [EvCleanSubklassTree] else []).

(** [claim_next_klass] returns a class and the class is cleaned, class
    after class *)
Definition klass_rounds (ks : list Klass) : list event :=
  ks ≫= λ k, [EvNextKlass (Some k); EvCleanKlass k].

(** What a worker standing at [l] has called in the klass cleaning
    task. *)
Definition klass_shape (unloading_occurred : bool) (l : pc) (h : list event)
    : Prop :=
  match l with
  | L_klass_claim => klass_calls h = [EvWork KlassTask]
  | L_klass_cmpxchg =>
      klass_calls h = [EvWork KlassTask; EvClaimCall KlassTreeGate]
  | L_klass_tree =>
      klass_calls h = [EvWork KlassTask; EvClaimCall KlassTreeGate;
                       EvClaimRet KlassTreeGate true]
  | L_klass_next =>
      ∃ won ks, klass_calls h = klass_opening won ++ klass_rounds ks
  | L_klass_clean k =>
      ∃ won ks, klass_calls h
                = klass_opening won ++ klass_rounds ks ++ [EvNextKlass (Some k)]
  | L_done =>
      if unloading_occurred then
        ∃ won ks, klass_calls h
                  = klass_opening won ++ klass_rounds ks ++ [EvNextKlass None]
      else klass_calls h = []
  | _ => klass_calls h = []
  end.

(** * Proofs *)

(** ** Lists of workers and of events *)

Lemma total_nil {A} (f : A → nat) : total f [] = 0.
Proof. done. Qed.

Lemma total_cons {A} (f : A → nat) x l : total f (x :: l) = f x + total f l.
Proof. done. Qed.

Lemma total_app {A} (f : A → nat) l1 l2 :
  total f (l1 ++ l2) = total f l1 + total f l2.
Proof. apply sum_list_with_app. Qed.

Lemma total_insert {A} (f : A → nat) (l : list A) i x y :
  l !! i = Some x →
  total f (<[i:=y]> l) + f x = total f l + f y.
Proof.
  intros Hi. pose proof (lookup_lt_Some _ _ _ Hi) as Hlt.
  rewrite insert_take_drop by done.
  rewrite <-(take_drop_middle l i x) at 3 by done.
  rewrite !total_app, !total_cons. lia.
Qed.

Lemma total_replicate {A} (f : A → nat) n x : total f (replicate n x) = n * f x.
Proof.
  induction n as [|n IH]; [done|].
  change (replicate (S n) x) with (x :: replicate n x).
  rewrite total_cons, IH. lia.
Qed.

Lemma total_zero {A} (f : A → nat) l :
  Forall (λ x, f x = 0) l → total f l = 0.
Proof. induction 1 as [|x l Hx _ IH]; [done|]. rewrite total_cons. lia. Qed.

Lemma total_const {A} (f : A → nat) l c :
  Forall (λ x, f x = c) l → total f l = length l * c.
Proof.
  induction 1 as [|x l Hx _ IH]; [done|]. rewrite total_cons. simpl. lia.
Qed.

Lemma events_of_app t tr1 tr2 :
  events_of t (tr1 ++ tr2) = events_of t tr1 ++ events_of t tr2.
Proof. apply omap_app. Qed.

Lemma events_of_same t (evs : list event) :
  events_of t ((λ e, (t, e)) <$> evs) = evs.
Proof.
  induction evs as [|e evs IH]; [done|].
  unfold events_of in *. simpl in *. rewrite decide_True by done.
  simpl. by f_equal.
Qed.

Lemma events_of_other t t' (evs : list event) :
  t ≠ t' → events_of t ((λ e, (t', e)) <$> evs) = [].
Proof.
  intros Hne. induction evs as [|e evs IH]; [done|].
  unfold events_of in *. simpl in *. by rewrite decide_False by congruence.
Qed.

Lemma snd_tagged {T} (t : T) (evs : list event) :
  ((λ e, (t, e)) <$> evs).*2 = evs.
Proof. induction evs as [|e evs IH]; [done|]. simpl in *. by f_equal. Qed.

(** ** Reachable states *)

Lemma run_app E sched1 sched2 s :
  run E (sched1 ++ sched2) s = run E sched2 (run E sched1 s).
Proof. apply foldl_app. Qed.

Lemma run_snoc E sched w s :
  run E (sched ++ [w]) s = step E w (run E sched s).
Proof. by rewrite run_app. Qed.

Lemma reachable_step E N uo rz s w :
  reachable E N uo rz s → reachable E N uo rz (step E w s).
Proof. intros [sched ->]. exists (sched ++ [w]). by rewrite run_snoc. Qed.

Lemma reachable_run E N uo rz sched :
  reachable E N uo rz (run E sched (init E N uo rz)).
Proof. by exists sched. Qed.

(** Induction over the steps that lead to a state: a property of the
    initial state that every step of a standing worker keeps holds of
    every reachable state. *)
Lemma reachable_ind E N uo rz (P : state → Prop) :
  P (init E N uo rz) →
  (∀ s w l p' l' evs,
     reachable E N uo rz s → P s →
     pcs s !! w = Some l →
     exec E w l (task s) = (p', l', evs) →
     P {| task := p'; pcs := <[w := l']> (pcs s);
          trace := trace s ++ ((λ e, (Worker w, e)) <$> evs) |}) →
  ∀ s, reachable E N uo rz s → P s.
Proof.
  intros Hinit Hstep s [sched ->].
  induction sched as [|w sched IH] using rev_ind; [done|].
  rewrite run_snoc. unfold step.
  destruct (pcs (run E sched (init E N uo rz)) !! w) as [l|] eqn:Hl; [|done].
  destruct (exec E w l (task (run E sched (init E N uo rz))))
    as [[p' l'] evs] eqn:Hex.
  eapply Hstep; eauto using reachable_run.
Qed.

(** ** The fields that stay, and where workers can stand *)

(** Split a step of [exec] into its cases. *)
Ltac exec_cases H :=
  unfold exec, Atomic.cmpxchg, StringDedupCleaningTask.work,
    KlassIterator.next_klass in H;
  simpl in H;
  repeat case_match; simplify_eq; simpl in *.

Lemma walk_None E : CodeCacheUnloadingTask.walk E None = ([], None).
Proof. done. Qed.

Lemma exec_ok E uo w l p p' l' evs :
  task_ok uo p → pc_ok E uo l →
  exec E w l p = (p', l', evs) →
  task_ok uo p' ∧ pc_ok E uo l'.
Proof.
  intros [Hp1 Hp2] Hl Hex. unfold task_ok.
  destruct l; exec_cases Hex; try done.
  all: repeat match goal with
       | H : _ && _ = true |- _ => apply andb_prop in H as [??]
       end; subst; simpl in *; try done.
  all: split; [done|]; by repeat match goal with H : _ = true |- _ => rewrite H end.
Qed.

Lemma init_task_ok E N uo rz : task_ok uo (task (init E N uo rz)).
Proof. by split. Qed.

Lemma work_entry_ok E uo : pc_ok E uo (work_entry E).
Proof. unfold work_entry. by destruct (INCLUDE_JVMCI E) eqn:?. Qed.

(** In every reachable state the constant fields hold what the
    constructor was given, there are [N] workers, and each stands where
    the switches allow. *)
Lemma reachable_ok E N uo rz s :
  reachable E N uo rz s →
  task_ok uo (task s) ∧ Forall (pc_ok E uo) (pcs s) ∧ length (pcs s) = N.
Proof.
  induction 1 as [|s w l p' l' evs Hr (Ht & Hpcs & Hlen) Hl Hex]
    using reachable_ind.
  - split; [apply init_task_ok|]. simpl. split.
    + apply Forall_replicate, work_entry_ok.
    + apply length_replicate.
  - simpl. pose proof (Forall_lookup_1 _ _ _ _ Hpcs Hl) as Hok.
    destruct (exec_ok _ _ _ _ _ _ _ _ Ht Hok Hex) as [Ht' Hok'].
    split; [done|]. split; [|by rewrite length_insert].
    by apply Forall_insert.
Qed.

Lemma reachable_task_ok E N uo rz s :
  reachable E N uo rz s → task_ok uo (task s).
Proof. intros H. by apply reachable_ok in H as (?&?&?). Qed.

Lemma reachable_pc_ok E N uo rz s w l :
  reachable E N uo rz s → pcs s !! w = Some l → pc_ok E uo l.
Proof.
  intros H Hl. apply reachable_ok in H as (_&H&_).
  by eapply Forall_lookup_1.
Qed.

Lemma reachable_length E N uo rz s :
  reachable E N uo rz s → length (pcs s) = N.
Proof. intros H. by apply reachable_ok in H as (?&?&?). Qed.

(** ** Ledgers: counts of events against where the workers stand *)

(** If every step adds as much to the [a]-events and the [f]-weight of
    the stepping worker as to the [b]-events and its [g]-weight, the two
    sides stay in balance over every schedule. *)
Lemma ledger E N uo rz (a b : event → nat) (f g : pc → nat) :
  total a (trace (init E N uo rz)).*2 + N * f (work_entry E)
    = total b (trace (init E N uo rz)).*2 + N * g (work_entry E) →
  (∀ w l p p' l' evs,
     task_ok uo p → pc_ok E uo l →
     exec E w l p = (p', l', evs) →
     total a evs + f l' + g l = total b evs + g l' + f l) →
  ∀ s, reachable E N uo rz s →
    total a (trace s).*2 + total f (pcs s) = total b (trace s).*2 + total g (pcs s).
Proof.
  intros Hinit Hstep s Hs.
  induction Hs as [|s w l p' l' evs Hr IH Hl Hex] using reachable_ind.
  - change (pcs (init E N uo rz)) with (replicate N (work_entry E)).
    by rewrite !total_replicate.
  - simpl. rewrite fmap_app, snd_tagged, !total_app.
    specialize (Hstep w l (task s) p' l' evs
      (reachable_task_ok _ _ _ _ _ Hr) (reachable_pc_ok _ _ _ _ _ _ _ Hr Hl) Hex).
    pose proof (total_insert f (pcs s) w l l' Hl).
    pose proof (total_insert g (pcs s) w l l' Hl).
    lia.
Qed.

(** What a worker has called so far depends on where it stands: a
    property of a worker's own history that each of its steps keeps. *)
Lemma history E N uo rz (Q : nat → pc → list event → Prop) :
  (∀ w, Q w (work_entry E) []) →
  (∀ s w l p' l' evs,
     reachable E N uo rz s →
     pcs s !! w = Some l →
     Q w l (events_of (Worker w) (trace s)) →
     exec E w l (task s) = (p', l', evs) →
     Q w l' (events_of (Worker w) (trace s) ++ evs)) →
  ∀ s, reachable E N uo rz s →
    ∀ w l, pcs s !! w = Some l → Q w l (events_of (Worker w) (trace s)).
Proof.
  intros Hinit Hstep s Hs.
  induction Hs as [|s w l p' l' evs Hr IH Hl Hex] using reachable_ind.
  - intros w l [-> _]%lookup_replicate.
    unfold init. simpl. destruct (StringDedup_is_enabled E); apply Hinit.
  - intros w' l0 Hw'. simpl in *.
    rewrite events_of_app.
    destruct (decide (w' = w)) as [->|Hne].
    + rewrite events_of_same.
      rewrite list_lookup_insert_eq in Hw' by (by eapply lookup_lt_Some).
      simplify_eq. eauto.
    + rewrite events_of_other, app_nil_r by congruence.
      rewrite list_lookup_insert_ne in Hw' by done. eauto.
Qed.

(** ** Single-claim gates *)

Ltac count_events :=
  unfold calls, wins, losses in *;
  rewrite ?fmap_app, ?snd_tagged, ?total_app in *;
  simpl in *; unfold is_ev in *; simpl in *.

(** The flag is 0 or 1, it counts the claims won, and no claim has
    returned while it is 0. *)
Lemma gate_flag E N uo rz g s :
  reachable E N uo rz s →
  (flag g (task s) = 0 ∨ flag g (task s) = 1)%Z
  ∧ wins g (trace s).*2 = Z.to_nat (flag g (task s))
  ∧ (flag g (task s) = 0%Z → losses g (trace s).*2 = 0).
Proof.
  induction 1 as [|s w l p' l' evs Hr (Hf & Hw & Hl0) Hl Hex]
    using reachable_ind.
  - unfold init; simpl. by destruct g, (StringDedup_is_enabled E); auto.
  - destruct s as [p pcs tr]; simpl in *. count_events.
    destruct l; exec_cases Hex; destruct g; simpl in *;
      rewrite ?Nat.add_0_r; try done.
    all: repeat match goal with
         | H : bool_decide _ = _ |- _ =>
             first [ apply bool_decide_eq_true in H
                   | apply bool_decide_eq_false in H ]
         end; try lia.
    all: try (destruct Hf as [Hf|Hf]; rewrite Hf in *; simpl in *; lia).
    all: try (split; [lia|]; split; [|lia]; lia).
Qed.

(** Every call of a claim has returned or stands before its
    compare-and-exchange. *)
Lemma gate_calls E N uo rz g s :
  reachable E N uo rz s →
  calls g (trace s).*2
    = wins g (trace s).*2 + losses g (trace s).*2 + total (at_cmpxchg g) (pcs s).
Proof.
  intros Hs.
  assert (∀ h, total (λ e, is_ev (EvClaimRet g true) e + is_ev (EvClaimRet g false) e) h
               = wins g h + losses g h) as Hsum.
  { induction h as [|e h IH]; [done|].
    unfold wins, losses in *. rewrite !total_cons, IH. lia. }
  assert (total (λ _ : pc, 0) (pcs s) = 0) as Hz.
  { apply total_zero, Forall_forall; done. }
  opose proof (ledger E N uo rz (is_ev (EvClaimCall g))
    (λ e, is_ev (EvClaimRet g true) e + is_ev (EvClaimRet g false) e)
    (λ _, 0) (at_cmpxchg g) _ _ s Hs) as L.
  - unfold init, work_entry; simpl.
    destruct g, (StringDedup_is_enabled E), (INCLUDE_JVMCI E); simpl;
      rewrite ?total_nil, ?total_cons; unfold wins, losses, is_ev; simpl; lia.
  - intros w l p p' l' evs _ _ Hex.
    destruct l; exec_cases Hex; destruct g; unfold is_ev; simpl; lia.
  - rewrite Hsum, Hz in L. unfold calls. lia.
Qed.

(** How many workers have called the claim of [g]. *)
Lemma gate_called E N uo rz g s :
  reachable E N uo rz s →
  calls g (trace s).*2 = total (called E uo g) (pcs s).
Proof.
  intros Hs.
  opose proof (ledger E N uo rz (is_ev (EvClaimCall g)) (λ _, 0)
    (λ _, 0) (called E uo g) _ _ s Hs) as L.
  - unfold init, work_entry, called, gate_used; simpl.
    destruct g, (StringDedup_is_enabled E), (INCLUDE_JVMCI E) eqn:HI; simpl;
      rewrite ?total_nil, ?total_cons; unfold is_ev; simpl; lia.
  - intros w l p p' l' evs [Hp1 Hp2] Hok Hex.
    destruct l; exec_cases Hex; destruct g; unfold is_ev; simpl;
      repeat match goal with
      | H : _ && _ = true |- _ => apply andb_prop in H as [??]
      | H : _ && _ = false |- _ => apply andb_false_iff in H as [?|?]
      end;
      repeat match goal with
      | H : _ = true |- _ => rewrite H in *
      | H : _ = false |- _ => rewrite H in *
      end; simpl in *; rewrite ?andb_false_r; try done; try lia.
  - assert (∀ A (l : list A), total (λ _, 0) l = 0) as Hz.
    { intros A l. apply total_zero, Forall_forall; done. }
    rewrite !Hz in L. unfold calls. lia.
Qed.

Lemma all_returned_total (f : pc → nat) s :
  all_returned s = true → total f (pcs s) = length (pcs s) * f L_done.
Proof.
  unfold all_returned. intros H%Is_true_true%forallb_True.
  apply total_const. eapply Forall_impl; [done|].
  intros [] Hx; simpl in Hx; done.
Qed.

Lemma all_returned_lookup s w l :
  all_returned s = true → pcs s !! w = Some l → l = L_done.
Proof.
  unfold all_returned. intros H%Is_true_true%forallb_True Hl.
  pose proof (Forall_lookup_1 _ _ _ _ H Hl) as Hx.
  by destruct l.
Qed.

(** A gate has not been won and no claim has returned, or it has been
    won once. *)
Lemma single_claim_cases E N uo rz s g :
  reachable E N uo rz s →
  (wins g (trace s).*2 = 0 ∧ losses g (trace s).*2 = 0)
  ∨ wins g (trace s).*2 = 1.
Proof.
  intros Hr. destruct (gate_flag E N uo rz g _ Hr) as (Hf & Hw & Hl0).
  destruct Hf as [Hf|Hf]; rewrite Hf in *; simpl in *; [|by right].
  left. auto.
Qed.

(** ** Walking the code cache *)

Lemma next_alive_middle pre x post :
  x ∉ pre →
  CompiledMethodIterator.next_alive (pre ++ x :: post) x = head post.
Proof.
  induction pre as [|y pre IH]; simpl; intros Hx.
  - by rewrite decide_True.
  - apply not_elem_of_cons in Hx as [??]. rewrite decide_False by done. auto.
Qed.

Lemma upto_lookup l m y :
  NoDup l → l !! m = Some y → upto l y = take (S m) l.
Proof.
  revert m. induction l as [|z l IH]; intros m Hnd Hm; [done|].
  apply NoDup_cons in Hnd as [Hz Hnd]. destruct m as [|m]; simpl in *.
  - simplify_eq. by rewrite decide_True, ?take_0.
  - rewrite decide_False.
    + f_equal. by apply IH.
    + intros ->. apply Hz. by eapply list_elem_of_lookup_2.
Qed.

Lemma upto_middle pre x post :
  NoDup (pre ++ x :: post) → upto (pre ++ x :: post) x = pre ++ [x].
Proof.
  intros Hnd. rewrite (upto_lookup _ (length pre) x Hnd).
  - rewrite take_app_ge by lia.
    by replace (S (length pre) - length pre) with 1 by lia.
  - by rewrite list_lookup_middle.
Qed.

Lemma claim_loop_spec n : ∀ pre x post acc,
  NoDup (pre ++ x :: post) →
  ∃ it,
    CodeCacheUnloadingTask.claim_loop (pre ++ x :: post) n
      (CompiledMethodIterator.only_alive (Some x)) acc
      = (acc ++ take n post, it)
    ∧ CompiledMethodIterator.method it
      = match n with 0 => Some x | S m => post !! m end.
Proof.
  induction n as [|n IH]; intros pre x post acc Hnd.
  - eexists. simpl. by rewrite take_0, app_nil_r.
  - assert (x ∉ pre) as Hx.
    { apply NoDup_app in Hnd as (_ & Hd & _). intros Hin.
      apply (Hd _ Hin). left. }
    cbn [CodeCacheUnloadingTask.claim_loop].
    unfold CompiledMethodIterator.next, CompiledMethodIterator.only_alive.
    cbn [CompiledMethodIterator._at_end CompiledMethodIterator._code_blob].
    rewrite next_alive_middle by done.
    destruct post as [|y post]; simpl.
    + eexists. by rewrite app_nil_r.
    + destruct (IH (pre ++ [x]) y post (acc ++ [y])) as (it & Hit & Hm).
      { by rewrite <-app_assoc. }
      rewrite <-app_assoc in Hit. simpl in Hit.
      unfold CompiledMethodIterator.only_alive in Hit. rewrite Hit.
      exists it. rewrite <-app_assoc. split; [done|].
      rewrite Hm. by destruct n.
Qed.

(** What one walk from a method of the cache claims: the methods after
    it, at most [MaxClaimNmethods] of them, and where the cursor would
    come to stand. *)
Lemma walk_spec E x b lm :
  NoDup (code_cache E) → x ∈ code_cache E →
  CodeCacheUnloadingTask.walk E (Some x) = (b, lm) →
  passed (code_cache E) lm = upto (code_cache E) x ++ b
  ∧ length b ≤ MaxClaimNmethods E
  ∧ (∀ nm, lm = Some nm → nm ∈ code_cache E)
  ∧ (1 ≤ MaxClaimNmethods E → b = [] → lm = None).
Proof.
  intros Hnd Hx Hw. unfold CodeCacheUnloadingTask.walk in Hw.
  apply list_elem_of_split in Hx as (pre & post & Hc).
  rewrite Hc in *.
  destruct (claim_loop_spec (MaxClaimNmethods E) pre x post [] Hnd)
    as (it & Hit & Hm).
  rewrite Hit in Hw. simpl in Hw. simplify_eq.
  rewrite upto_middle by done. split_and!.
  - rewrite Hm. destruct (MaxClaimNmethods E) as [|m] eqn:HK.
    + cbn [passed]. rewrite upto_middle by done. by rewrite take_0, app_nil_r.
    + destruct (post !! m) as [y|] eqn:Hy; cbn [passed].
      * rewrite (upto_lookup _ (length pre + S m) y Hnd).
        -- rewrite take_app_ge by lia.
           replace (S (length pre + S m) - length pre) with (S (S m)) by lia.
           simpl. by rewrite <-app_assoc.
        -- rewrite lookup_app_r by lia.
           replace (length pre + S m - length pre) with (S m) by lia. done.
      * apply lookup_ge_None in Hy. rewrite take_ge by lia.
        by rewrite <-app_assoc.
  - rewrite length_take. lia.
  - intros nm Hnm. rewrite Hm in Hnm.
    destruct (MaxClaimNmethods E) as [|m]; simplify_eq.
    + apply elem_of_app. right. left.
    + apply elem_of_app. right. right. by eapply list_elem_of_lookup_2.
  - intros HK Hb. rewrite Hm.
    destruct (MaxClaimNmethods E) as [|m]; [lia|].
    destruct post as [|y post]; [by destruct m|done].
Qed.

(** A walk that claims nothing started from the last alive method. *)
Lemma walk_empty E x lm :
  NoDup (code_cache E) → x ∈ code_cache E → 1 ≤ MaxClaimNmethods E →
  CodeCacheUnloadingTask.walk E (Some x) = ([], lm) →
  CompiledMethodIterator.next_alive (code_cache E) x = None.
Proof.
  intros Hnd Hx HK Hw. unfold CodeCacheUnloadingTask.walk in Hw.
  apply list_elem_of_split in Hx as (pre & post & Hc).
  rewrite Hc in *.
  destruct (claim_loop_spec (MaxClaimNmethods E) pre x post [] Hnd)
    as (it & Hit & _).
  rewrite Hit in Hw. simpl in Hw. simplify_eq.
  assert (x ∉ pre) as Hx.
  { apply NoDup_app in Hnd as (_ & Hd & _). intros Hin.
    apply (Hd _ Hin). left. }
  rewrite next_alive_middle by done.
  destruct (MaxClaimNmethods E); [lia|]. by destruct post.
Qed.

(** ** The code cache task under every schedule *)

Lemma bind_insert {A} (f : pc → list A) (pcs : list pc) w l l' :
  pcs !! w = Some l →
  ∃ r, pcs ≫= f ≡ₚ f l ++ r ∧ <[w := l']> pcs ≫= f ≡ₚ f l' ++ r.
Proof.
  intros Hl. pose proof (lookup_lt_Some _ _ _ Hl) as Hlt.
  exists ((take w pcs ≫= f) ++ (drop (S w) pcs ≫= f)). split.
  - rewrite <-(take_drop_middle pcs w l) at 1 by done.
    rewrite bind_app, bind_cons. apply Permutation_app_swap_app.
  - rewrite insert_take_drop by done.
    rewrite bind_app, bind_cons. apply Permutation_app_swap_app.
Qed.

Lemma holding_insert pcs w l l' :
  pcs !! w = Some l →
  ∃ r, holding pcs ≡ₚ pending l ++ r
       ∧ holding (<[w := l']> pcs) ≡ₚ pending l' ++ r.
Proof. apply bind_insert. Qed.

Lemma elem_of_insert_inv {A} (l : list A) i x y :
  x ∈ <[i := y]> l → x = y ∨ x ∈ l.
Proof.
  intros [j Hj]%list_elem_of_lookup_1.
  apply list_lookup_insert_Some in Hj as [(-> & -> & _)|(_ & Hj)]; [by left|].
  right. by eapply list_elem_of_lookup_2.
Qed.

Lemma unloaded_app h1 h2 : unloaded (h1 ++ h2) = unloaded h1 ++ unloaded h2.
Proof. apply omap_app. Qed.

Lemma batches_app h1 h2 : batches (h1 ++ h2) = batches h1 ++ batches h2.
Proof. apply omap_app. Qed.

(** What a step does to the code cache task: worker 0 unloads the first
    method, or a compare-and-exchange succeeds and returns a batch, or a
    claimed method is unloaded, or nothing of it changes. *)
Lemma exec_cc E w l p p' l' evs :
  exec E w l p = (p', l', evs) →
  let cc := ParallelCleaningTask._code_cache_task p in
  let cc' := ParallelCleaningTask._code_cache_task p' in
  (∃ nm, w = 0 ∧ l = L_pct_code_cache ∧ l' = L_cc_claim
         ∧ CodeCacheUnloadingTask._first_nmethod cc = Some nm
         ∧ cc' = CodeCacheUnloadingTask.set_first_nmethod cc None
         ∧ unloaded evs = [nm] ∧ batches evs = []
         ∧ cc_calls evs
           = [EvDoUnloading nm (CodeCacheUnloadingTask._unloading_occurred cc)])
  ∨ (∃ b lm,
         l = L_cc_cmpxchg (CodeCacheUnloadingTask._claimed_nmethod cc) b lm
         ∧ cc' = CodeCacheUnloadingTask.set_claimed_nmethod cc lm
         ∧ l' = match b with [] => L_pct_string_dedup | _ :: _ => L_cc_unload b end
         ∧ unloaded evs = [] ∧ batches evs = [b]
         ∧ cc_calls evs = [EvClaimNmethods b])
  ∨ (∃ nm rest, l = L_cc_unload (nm :: rest) ∧ l' = L_cc_unload rest
         ∧ cc' = cc ∧ unloaded evs = [nm] ∧ batches evs = []
         ∧ cc_calls evs
           = [EvDoUnloading nm (CodeCacheUnloadingTask._unloading_occurred cc)])
  ∨ (cc' = cc ∧ unloaded evs = [] ∧ batches evs = []
     ∧ pending l = [] ∧ pending l' = []
     ∧ (cc_returned l' = true → cc_returned l = true)
     ∧ (cc_entered l' = true →
        cc_entered l = true ∨ w ≠ 0
        ∨ CodeCacheUnloadingTask._first_nmethod cc = None)
     ∧ (cc_entered l' = false → cc_entered l = false)
     ∧ (cc_returned l = cc_returned l')
     ∧ cc_calls evs = []).
Proof.
  intros Hex.
  destruct p as [puo sd [cuo nw first cursor] jv kl].
  destruct l; exec_cases Hex;
    try (by repeat right; split_and!; auto).
  - (* worker 0 unloads the first method *)
    left. eexists. by split_and!.
  - (* an empty batch is returned *)
    right; left. do 2 eexists. by split_and!.
  - (* a batch is returned *)
    right; left. do 2 eexists. by split_and!.
  - (* a claimed method is unloaded *)
    do 2 right; left. do 2 eexists. by split_and!.
Qed.

Lemma new_fields E N uo :
  CodeCacheUnloadingTask._first_nmethod (CodeCacheUnloadingTask.new E N uo)
    = head (code_cache E)
  ∧ CodeCacheUnloadingTask._claimed_nmethod (CodeCacheUnloadingTask.new E N uo)
    = head (code_cache E).
Proof.
  unfold CodeCacheUnloadingTask.new, CompiledMethodIterator.next. simpl.
  by destruct (head (code_cache E)).
Qed.

Lemma init_trace E N uo rz :
  (trace (init E N uo rz)).*2
  = if StringDedup_is_enabled E then [EvGcPrologue rz] else [].
Proof. unfold init. simpl. by destruct (StringDedup_is_enabled E). Qed.

Lemma init_code_cache_task E N uo rz :
  ParallelCleaningTask._code_cache_task (task (init E N uo rz))
  = CodeCacheUnloadingTask.new E N uo.
Proof. done. Qed.

Lemma holding_replicate n l : pending l = [] → holding (replicate n l) = [].
Proof.
  intros Hl. unfold holding. induction n as [|n IH]; [done|].
  change (replicate (S n) l) with (l :: replicate n l).
  by rewrite bind_cons, Hl, IH.
Qed.

Lemma tail_passed_head cache : tail (passed cache (head cache)) = [].
Proof. destruct cache as [|x cache]; [done|]. simpl. by rewrite decide_True. Qed.

Lemma upto_nonempty cache nm : nm ∈ cache → upto cache nm ≠ [].
Proof. destruct 1; simpl; by case_decide. Qed.

Lemma tail_app_nonempty {A} (l k : list A) : l ≠ [] → tail (l ++ k) = tail l ++ k.
Proof. by destruct l. Qed.

Lemma init_cc E N uo rz : cc_inv E (init E N uo rz).
Proof.
  destruct (new_fields E N uo) as [Hf Hc].
  constructor; rewrite ?init_trace, ?init_code_cache_task, ?Hf, ?Hc.
  - intros nm Hnm. by apply head_Some_elem_of.
  - done.
  - intros l [-> _]%lookup_replicate. unfold work_entry.
    by destruct (INCLUDE_JVMCI E).
  - rewrite tail_passed_head. by destruct (StringDedup_is_enabled E).
  - by destruct (StringDedup_is_enabled E).
  - rewrite tail_passed_head. unfold init; simpl.
    rewrite holding_replicate
      by (unfold work_entry; by destruct (INCLUDE_JVMCI E)).
    destruct (StringDedup_is_enabled E), (code_cache E); done.
  - intros l [-> _]%elem_of_replicate. unfold work_entry.
    by destruct (INCLUDE_JVMCI E).
  - destruct (StringDedup_is_enabled E); simpl; by intros ?%elem_of_nil.
Qed.

Lemma first_cleared_insert (pcs : list pc) w l l' (P : Prop) :
  pcs !! w = Some l →
  (∀ l0, pcs !! 0 = Some l0 → cc_entered l0 = true → P) →
  (cc_entered l' = true → cc_entered l = true ∨ w ≠ 0 ∨ P) →
  ∀ l0, <[w := l']> pcs !! 0 = Some l0 → cc_entered l0 = true → P.
Proof.
  intros Hl IH Hent l0 Hl0 He. destruct (decide (w = 0)) as [->|Hw].
  - rewrite list_lookup_insert_eq in Hl0 by (by eapply lookup_lt_Some).
    simplify_eq. destruct (Hent He) as [?|[?|?]]; [eauto|done..].
  - rewrite list_lookup_insert_ne in Hl0 by done. eauto.
Qed.

Ltac cc_goal Hun Hba Hcc :=
  constructor; cbn [task pcs trace];
  rewrite ?fmap_app, ?snd_tagged, ?unloaded_app, ?batches_app,
    ?Hun, ?Hba, ?Hcc, ?app_nil_r;
  cbn [CodeCacheUnloadingTask._claimed_nmethod
       CodeCacheUnloadingTask._first_nmethod
       CodeCacheUnloadingTask.set_first_nmethod
       CodeCacheUnloadingTask.set_claimed_nmethod];
  try done.

(** The invariant of the code cache task holds under every schedule. *)
Lemma reachable_cc E N uo rz s :
  NoDup (code_cache E) → 1 ≤ MaxClaimNmethods E →
  reachable E N uo rz s → cc_inv E s.
Proof.
  intros Hnd HK.
  induction 1 as [|s w l p' l' evs Hr IH Hl Hex] using reachable_ind;
    [apply init_cc|].
  pose proof (reachable_pc_ok _ _ _ _ _ _ _ Hr Hl) as Hok.
  destruct IH as [Hcur Hfh Hfc Hb Hsz Hu Hep Heb].
  destruct (holding_insert (pcs s) w l l' Hl) as (r & Hr1 & Hr2).
  destruct (exec_cc _ _ _ _ _ _ _ Hex)
    as [(nm & -> & -> & -> & Hf & Hcc & Hun & Hba & _)
       |[(b & lm & -> & Hcc & -> & Hun & Hba & _)
       |[(nm & rest & -> & -> & Hcc & Hun & Hba & _)
        |(Hcc & Hun & Hba & Hp & Hp' & Hret & Hent & _)]]];
    cbn [task pcs trace] in *.
  - (* worker 0 unloads the first method *)
    cc_goal Hun Hba Hcc.
    + rewrite Hr2. rewrite Hr1, Hf in Hu. simpl in *.
      rewrite (Hfh _ Hf). simpl. rewrite <-Hu. solve_Permutation.
    + intros l [->|Hin]%elem_of_insert_inv; [done|]. by apply Hep.
  - (* a compare-and-exchange succeeds *)
    assert (pending (match b with [] => L_pct_string_dedup
                     | _ :: _ => L_cc_unload b end) = b) as Hpb
      by (by destruct b).
    rewrite Hpb in Hr2. clear Hpb.
    destruct (CodeCacheUnloadingTask._claimed_nmethod
                (ParallelCleaningTask._code_cache_task (task s)))
      as [x|] eqn:Hx.
    + destruct (walk_spec E x b lm Hnd (Hcur _ eq_refl) Hok)
        as (Hpass & Hlen & Hin & Hemp).
      pose proof (upto_nonempty _ _ (Hcur _ eq_refl)) as Hne.
      cc_goal Hun Hba Hcc.
      * eapply first_cleared_insert; eauto.
      * rewrite join_app, Hb. simpl. rewrite app_nil_r, Hpass.
        by rewrite tail_app_nonempty.
      * apply Forall_app. split; [done|]. by apply Forall_singleton.
      * rewrite Hr2, Hpass, tail_app_nonempty by done.
        rewrite Hr1 in Hu. simpl in Hu.
        rewrite (app_assoc (first_done _ _)), <-Hu. solve_Permutation.
      * intros l [->|Hin']%elem_of_insert_inv.
        -- destruct b; [auto|done].
        -- intros Hl'. by specialize (Hep _ Hin' Hl').
      * intros [Hin'|Hb']%elem_of_app; [by specialize (Heb Hin')|].
        apply list_elem_of_singleton in Hb'. symmetry in Hb'. auto.
    + cbn [pc_ok] in Hok. rewrite walk_None in Hok. simplify_eq.
      cc_goal Hun Hba Hcc.
      * eapply first_cleared_insert; eauto.
      * by rewrite join_app, Hb, app_nil_r.
      * apply Forall_app. split; [done|]. apply Forall_singleton. simpl. lia.
      * by rewrite Hr2, <-Hu, Hr1.
  - (* a claimed method is unloaded *)
    cc_goal Hun Hba Hcc.
    + eapply first_cleared_insert; eauto.
    + rewrite Hr2, <-Hu, Hr1. simpl. solve_Permutation.
    + intros l [->|Hin]%elem_of_insert_inv; [done|]. by apply Hep.
  - (* nothing of the code cache task changes *)
    rewrite Hp in Hr1. rewrite Hp' in Hr2.
    cc_goal Hun Hba Hcc.
    + eapply first_cleared_insert; eauto.
    + by rewrite Hr2, <-Hu, Hr1.
    + intros l0 [->|Hin]%elem_of_insert_inv He; [|eauto].
      apply (Hep l); [by eapply list_elem_of_lookup_2|auto].
Qed.

(** The bound on a batch has to be positive: with a bound of zero every
    claim returns at once with no method, and only the first method is
    unloaded. *)
Remark batch_bound_zero :
  all_returned (after env_zero 4 true false (round_robin 4 60)) = true
  ∧ unloaded (trace (after env_zero 4 true false (round_robin 4 60))).*2 = [0].
Proof. by vm_compute. Qed.

Lemma occurrences_absent {A} `{EqDecision A} (x : A) (l : list A) :
  x ∉ l → occurrences x l = 0.
Proof.
  unfold occurrences. induction l as [|y l IH]; [done|].
  intros [??]%not_elem_of_cons. rewrite filter_cons_False by done. auto.
Qed.

Lemma occurrences_NoDup {A} `{EqDecision A} (x : A) (l : list A) :
  NoDup l → x ∈ l → occurrences x l = 1.
Proof.
  induction 1 as [|y l Hy Hnd IH]; [by intros ?%elem_of_nil|].
  intros [->|Hin]%elem_of_cons; unfold occurrences in *.
  - rewrite filter_cons_True by done. simpl. f_equal.
    by apply occurrences_absent.
  - rewrite filter_cons_False by (by intros ->). auto.
Qed.

Lemma occurrences_Permutation {A} `{EqDecision A} (x : A) (l k : list A) :
  l ≡ₚ k → occurrences x l = occurrences x k.
Proof. unfold occurrences. by intros ->. Qed.

Lemma all_cc_returned_Forall s :
  all_cc_returned s = true → Forall (λ l, cc_returned l = true) (pcs s).
Proof.
  unfold all_cc_returned. intros H%Is_true_true%forallb_True.
  eapply Forall_impl; [done|]. by intros l ?%Is_true_true.
Qed.

Lemma holding_returned pcs :
  Forall (λ l, cc_returned l = true) pcs → holding pcs = [].
Proof.
  unfold holding. induction 1 as [|l pcs Hl _ IH]; [done|].
  rewrite bind_cons, IH. by destruct l.
Qed.

Lemma head_tail {A} (l : list A) : option_list (head l) ++ tail l = l.
Proof. by destruct l. Qed.

Lemma upto_prefix cache nm : upto cache nm `prefix_of` cache.
Proof.
  induction cache as [|x cache IH]; simpl; [done|].
  case_decide.
  - by exists cache.
  - by apply prefix_cons.
Qed.

Lemma tail_prefix {A} (l k : list A) :
  l `prefix_of` k → tail l `prefix_of` tail k.
Proof.
  intros [m ->]. destruct l as [|x l]; simpl.
  - apply prefix_nil.
  - by exists m.
Qed.

Lemma passed_prefix cache cursor : passed cache cursor `prefix_of` cache.
Proof. destruct cursor; simpl; [apply upto_prefix|done]. Qed.

Lemma NoDup_tail {A} (l : list A) : NoDup l → NoDup (tail l).
Proof. destruct 1; [constructor|done]. Qed.

Lemma NoDup_prefix {A} (l k : list A) : l `prefix_of` k → NoDup k → NoDup l.
Proof. intros [m ->] Hnd. by apply NoDup_app in Hnd as (?&_&_). Qed.

(** ** The klass cleaning task under every schedule *)

Lemma claimed_klasses_app h1 h2 :
  claimed_klasses (h1 ++ h2) = claimed_klasses h1 ++ claimed_klasses h2.
Proof. apply omap_app. Qed.

Lemma cleaned_app h1 h2 : cleaned (h1 ++ h2) = cleaned h1 ++ cleaned h2.
Proof. apply omap_app. Qed.

(** Choose the case of a disjunction that can be closed outright. *)
Ltac pick_case :=
  first [ by (left; repeat first [split | eexists])
        | by (repeat first [split | eexists])
        | right; pick_case ].

(** What a step does to the class iterator: an instance class is
    returned, or a class that is none is skipped, or the end is met, or
    a class is cleaned, or nothing of it changes. *)
Lemma exec_klass E w l p p' l' evs :
  exec E w l p = (p', l', evs) →
  let it := KlassCleaningTask._klass_iterator
              (ParallelCleaningTask._klass_cleaning_task p) in
  let it' := KlassCleaningTask._klass_iterator
               (ParallelCleaningTask._klass_cleaning_task p') in
  (∃ k, l = L_klass_next ∧ it = k :: it' ∧ is_instance_klass k = true
        ∧ l' = L_klass_clean k
        ∧ claimed_klasses evs = [k] ∧ cleaned evs = [])
  ∨ (∃ k, l = L_klass_next ∧ it = k :: it' ∧ is_instance_klass k = false
        ∧ l' = L_klass_next
        ∧ claimed_klasses evs = [] ∧ cleaned evs = [])
  ∨ (l = L_klass_next ∧ it = [] ∧ it' = [] ∧ l' = L_done
        ∧ claimed_klasses evs = [] ∧ cleaned evs = [])
  ∨ (∃ k, l = L_klass_clean k ∧ l' = L_klass_next ∧ it' = it
        ∧ claimed_klasses evs = [] ∧ cleaned evs = [k])
  ∨ (it' = it ∧ claimed_klasses evs = [] ∧ cleaned evs = []
     ∧ cleaning l = [] ∧ cleaning l' = []
     ∧ (l' = L_done →
        l = L_done ∨ ParallelCleaningTask._unloading_occurred p = false)).
Proof.
  intros Hex.
  destruct p as [puo sd cc jv [flag it]].
  destruct l; exec_cases Hex;
    try (by repeat right; split_and!; auto); pick_case.
Qed.

Lemma exec_klass_idle E w l p p' l' evs :
  task_ok false p → pc_ok E false l →
  exec E w l p = (p', l', evs) →
  ParallelCleaningTask._klass_cleaning_task p'
    = ParallelCleaningTask._klass_cleaning_task p
  ∧ Forall (λ e, subtask_of e ≠ Some KlassTask) evs.
Proof.
  intros [Hp1 Hp2] Hok Hex.
  destruct p as [puo sd cc jv kl]. simpl in *. subst puo.
  destruct l; exec_cases Hex; try done;
    split; try done; repeat constructor; done.
Qed.

Lemma init_klass E N uo rz : klass_inv E uo (init E N uo rz).
Proof.
  assert (pcs (init E N uo rz) ≫= cleaning = []) as Hc.
  { unfold init; simpl. unfold work_entry.
    induction N as [|N IH]; [done|].
    change (replicate (S N) ?x) with (x :: replicate N x).
    rewrite bind_cons, IH. by destruct (INCLUDE_JVMCI E). }
  constructor; rewrite ?init_trace.
  - by destruct (StringDedup_is_enabled E).
  - rewrite Hc. by destruct (StringDedup_is_enabled E).
  - intros l [-> _]%elem_of_replicate. unfold work_entry.
    by destruct (INCLUDE_JVMCI E).
  - intros _. split; [done|].
    destruct (StringDedup_is_enabled E); repeat constructor; done.
Qed.

Ltac klass_goal Hcl Hcn :=
  constructor; [| | |assumption]; cbn [task pcs trace];
  rewrite ?fmap_app, ?snd_tagged, ?claimed_klasses_app, ?cleaned_app,
    ?Hcl, ?Hcn, ?app_nil_r;
  try done.

(** The invariant of the klass cleaning task holds under every schedule. *)
Lemma reachable_klass E N uo rz s :
  reachable E N uo rz s → klass_inv E uo s.
Proof.
  induction 1 as [|s w l p' l' evs Hr IH Hl Hex] using reachable_ind;
    [apply init_klass|].
  pose proof (reachable_pc_ok _ _ _ _ _ _ _ Hr Hl) as Hok.
  pose proof (reachable_task_ok _ _ _ _ _ Hr) as Htask.
  destruct IH as [Hc Hcl Hend Hidle].
  assert (uo = false →
          ParallelCleaningTask._klass_cleaning_task p' = KlassCleaningTask.new E
          ∧ Forall (λ e, subtask_of e ≠ Some KlassTask)
              (trace s ++ ((λ e, (Worker w, e)) <$> evs)).*2) as Hidle'.
  { intros ->. destruct (Hidle eq_refl) as [Hk Hf].
    destruct (exec_klass_idle _ _ _ _ _ _ _ Htask Hok Hex) as [Hk' Hf'].
    split; [congruence|].
    rewrite fmap_app, snd_tagged. by apply Forall_app. }
  destruct (bind_insert cleaning (pcs s) w l l' Hl) as (r & Hr1 & Hr2).
  destruct (exec_klass _ _ _ _ _ _ _ Hex)
    as [(k & -> & Hit & Hk & -> & Hcn & Hcd)
       |[(k & -> & Hit & Hk & -> & Hcn & Hcd)
       |[(-> & Hit & Hit' & -> & Hcn & Hcd)
       |[(k & -> & -> & Hit & Hcn & Hcd)
        |(Hit & Hcn & Hcd & Hp & Hp' & Hdone)]]]];
    cbn [task pcs trace cleaning] in *.
  - (* an instance class is returned *)
    klass_goal Hcn Hcd.
    + rewrite <-Hc, Hit, <-app_assoc. f_equal.
      unfold instances. by rewrite filter_cons_True.
    + rewrite Hr2, <-Hcl, Hr1. solve_Permutation.
    + intros l [->|Hin]%elem_of_insert_inv; [done|].
      intros -> Huo. specialize (Hend _ Hin eq_refl Huo).
      by rewrite Hend in Hit.
  - (* a class that is no instance class is skipped *)
    klass_goal Hcn Hcd.
    + rewrite <-Hc, Hit. f_equal.
      unfold instances. rewrite filter_cons_False; [done|]. by rewrite Hk.
    + by rewrite Hr2, <-Hcl, Hr1.
    + intros l [->|Hin]%elem_of_insert_inv; [done|].
      intros -> Huo. specialize (Hend _ Hin eq_refl Huo).
      by rewrite Hend in Hit.
  - (* the iterator is exhausted *)
    klass_goal Hcn Hcd.
    + by rewrite <-Hc, Hit, Hit'.
    + by rewrite Hr2, <-Hcl, Hr1.
  - (* a class is cleaned *)
    klass_goal Hcn Hcd.
    + by rewrite Hit.
    + rewrite Hr2, <-Hcl, Hr1. solve_Permutation.
    + intros l [->|Hin]%elem_of_insert_inv; [done|]. rewrite Hit. eauto.
  - (* nothing of the iterator changes *)
    rewrite Hp in Hr1. rewrite Hp' in Hr2.
    klass_goal Hcn Hcd.
    + by rewrite Hit.
    + by rewrite Hr2, <-Hcl, Hr1.
    + rewrite Hit. intros l0 [->|Hin]%elem_of_insert_inv Hl0 Huo; [|eauto].
      destruct (Hdone Hl0) as [->|Hf].
      * eapply Hend; eauto using list_elem_of_lookup_2.
      * destruct Htask as [Ht _]. congruence.
Qed.

(** The winner of the klass tree gate, and nobody else, cleans the
    subklass tree. *)
Lemma tree_cleaned E N uo rz s :
  reachable E N uo rz s →
  wins KlassTreeGate (trace s).*2
  = total (is_ev EvCleanSubklassTree) (trace s).*2 + total (at_pc L_klass_tree) (pcs s).
Proof.
  intros Hs.
  opose proof (ledger E N uo rz (is_ev (EvClaimRet KlassTreeGate true)) (is_ev EvCleanSubklassTree)
    (λ _, 0) (at_pc L_klass_tree) _ _ s Hs) as L.
  - rewrite init_trace. unfold work_entry.
    destruct (StringDedup_is_enabled E), (INCLUDE_JVMCI E); done.
  - intros w l p p' l' evs _ _ Hex.
    destruct l; exec_cases Hex; unfold is_ev, at_pc; simpl; lia.
  - assert (total (λ _ : pc, 0) (pcs s) = 0) as Hz.
    { apply total_zero, Forall_forall; done. }
    rewrite Hz in L. unfold wins. lia.
Qed.

Lemma total_absent (a : event → nat) (P : event → Prop) h :
  Forall P h → (∀ e, P e → a e = 0) → total a h = 0.
Proof. intros Hf Ha. apply total_zero. eapply Forall_impl; eauto. Qed.

Lemma omap_absent {A} (f : event → option A) (P : event → Prop) h :
  Forall P h → (∀ e, P e → f e = None) → omap f h = [].
Proof.
  intros Hf Ha. induction Hf as [|e h He _ IH]; [done|].
  simpl. by rewrite (Ha _ He).
Qed.

Lemma first_worker E N uo rz s :
  reachable E N uo rz s → 1 ≤ N → ∃ l, pcs s !! 0 = Some l.
Proof.
  intros Hr HN. destruct (pcs s !! 0) as [l|] eqn:Hl; [eauto|].
  apply lookup_ge_None in Hl. rewrite (reachable_length _ _ _ _ _ Hr) in Hl. lia.
Qed.

Lemma bind_returned {A} (f : pc → list A) s :
  all_returned s = true → f L_done = [] → pcs s ≫= f = [].
Proof.
  unfold all_returned. intros H%Is_true_true%forallb_True Hf.
  induction H as [|l pcs Hl _ IH]; [done|].
  rewrite bind_cons, IH. destruct l; try done. by rewrite Hf.
Qed.

(** ** [claim_next_klass] *)

(** What the loop of lines 141-143 returns when no other thread
    interferes: the first instance class of the iterator, having
    skipped the classes before it, or NULL at the end. *)
Lemma claim_next_klass_spec it :
  match KlassCleaningTask.claim_next_klass it with
  | (Some k, it') =>
      is_instance_klass k = true
      ∧ ∃ skipped, it = skipped ++ k :: it'
                   ∧ Forall (λ k', is_instance_klass k' = false) skipped
  | (None, it') =>
      it' = [] ∧ Forall (λ k', is_instance_klass k' = false) it
  end.
Proof.
  induction it as [|k it IH]; simpl; [done|].
  destruct (is_instance_klass k) eqn:Hk.
  - split; [done|]. by exists [].
  - destruct (KlassCleaningTask.claim_next_klass it) as [[k'|] it'].
    + destruct IH as (Hk' & skipped & -> & Hs). split; [done|].
      exists (k :: skipped). split; [done|]. by constructor.
    + destruct IH as [-> Hs]. split; [done|]. by constructor.
Qed.

Lemma step_unfold E w s l p' l' evs :
  pcs s !! w = Some l →
  exec E w l (task s) = (p', l', evs) →
  step E w s = {| task := p'; pcs := <[w := l']> (pcs s);
                  trace := trace s ++ ((λ e, (Worker w, e)) <$> evs) |}.
Proof. intros Hl Hex. unfold step. by rewrite Hl, Hex. Qed.

(** X14: the steps of a worker that stands at line 142 and is left alone
    amount to one call of [claim_next_klass]: the iterator is advanced
    past the classes that are not instance classes, and the worker goes
    on to clean the instance class that was returned, or returns when
    there was none. *)
Lemma claim_next_klass_run E w : ∀ s,
  pcs s !! w = Some L_klass_next →
  ∃ n,
    let kl := ParallelCleaningTask._klass_cleaning_task (task s) in
    let r := KlassCleaningTask.claim_next_klass
               (KlassCleaningTask._klass_iterator kl) in
    run E (replicate n w) s
    = {| task := ParallelCleaningTask.set_klass_cleaning_task (task s)
                   (KlassCleaningTask.set_klass_iterator kl r.2);
         pcs := <[w := match r.1 with
                       | Some k => L_klass_clean k
                       | None => L_done
                       end]> (pcs s);
         trace := trace s ++ [(Worker w, EvNextKlass r.1)] |}.
Proof.
  intros s.
  remember (KlassCleaningTask._klass_iterator
              (ParallelCleaningTask._klass_cleaning_task (task s))) as it eqn:Hit.
  revert s Hit. induction it as [|k it IH]; intros s Hit Hl.
  - exists 1. simpl. rewrite <-Hit. simpl.
    erewrite step_unfold; [|done|]; last first.
    { unfold exec. rewrite <-Hit. simpl. done. }
    done.
  - destruct (is_instance_klass k) eqn:Hk.
    + exists 1. simpl. rewrite <-Hit. simpl. rewrite Hk. simpl.
      erewrite step_unfold; [|done|]; last first.
      { unfold exec. rewrite <-Hit. simpl. rewrite Hk. done. }
      done.
    + assert (step E w s
              = {| task := ParallelCleaningTask.set_klass_cleaning_task (task s)
                     (KlassCleaningTask.set_klass_iterator
                        (ParallelCleaningTask._klass_cleaning_task (task s)) it);
                   pcs := <[w := L_klass_next]> (pcs s);
                   trace := trace s ++ [] |}) as Hstep.
      { erewrite step_unfold; [|done|]; last first.
        { unfold exec. rewrite <-Hit. simpl. rewrite Hk. done. }
        done. }
      destruct (IH (step E w s)) as [n Hn].
      * by rewrite Hstep.
      * rewrite Hstep. simpl. apply list_lookup_insert_eq.
        by eapply lookup_lt_Some.
      * exists (S n).
        change (run E (replicate (S n) w) s)
          with (run E (replicate n w) (step E w s)).
        rewrite Hn, Hstep. cbn [task pcs trace].
        rewrite <-Hit. simpl. rewrite Hk.
        rewrite list_insert_insert_eq, app_nil_r.
        by destruct (task s).
Qed.

(** X13: the two steps of a worker that stands at line 84 and is left
    alone amount to one call of [claim_nmethods]: the cursor is moved
    as the sequential function moves it, and the worker goes on to
    unload the batch that the function returns, or leaves when the
    batch is empty. *)
Lemma claim_nmethods_run E w s :
  pcs s !! w = Some L_cc_claim →
  let r := CodeCacheUnloadingTask.claim_nmethods E
             (ParallelCleaningTask._code_cache_task (task s)) in
  run E [w; w] s
  = {| task := ParallelCleaningTask.set_code_cache_task (task s) r.2;
       pcs := <[w := match r.1 with
                     | [] => L_pct_string_dedup
                     | _ :: _ => L_cc_unload r.1
                     end]> (pcs s);
       trace := trace s ++ [(Worker w, EvClaimNmethods r.1)] |}.
Proof.
  intros Hl. unfold CodeCacheUnloadingTask.claim_nmethods, Atomic.cmpxchg.
  destruct (CodeCacheUnloadingTask.walk E
              (CodeCacheUnloadingTask._claimed_nmethod
                 (ParallelCleaningTask._code_cache_task (task s))))
    as [claimed lm] eqn:Hw.
  change (run E [w; w] s) with (step E w (step E w s)).
  rewrite (step_unfold E w s _ _ _ _ Hl) by (simpl; rewrite Hw; done).
  rewrite (step_unfold E w _
             (L_cc_cmpxchg
                (CodeCacheUnloadingTask._claimed_nmethod
                   (ParallelCleaningTask._code_cache_task (task s)))
                claimed lm)
             (ParallelCleaningTask.set_code_cache_task (task s)
                (CodeCacheUnloadingTask.set_claimed_nmethod
                   (ParallelCleaningTask._code_cache_task (task s)) lm))
             (match claimed with
              | [] => L_pct_string_dedup
              | _ :: _ => L_cc_unload claimed
              end)
             [EvClaimNmethods claimed]).
  - cbn [task pcs trace]. rewrite list_insert_insert_eq, app_nil_r.
    by rewrite decide_True by done.
  - cbn [pcs]. apply list_lookup_insert_eq. by eapply lookup_lt_Some.
  - unfold exec, Atomic.cmpxchg. cbn [task]. by rewrite !decide_True by done.
Qed.

Lemma instances_Forall ks :
  Forall (λ k, is_instance_klass k = true) (instances ks).
Proof. apply Forall_forall. by intros k [??]%list_elem_of_filter. Qed.

Lemma occurrences_instances k ks :
  NoDup ks → k ∈ ks →
  occurrences k (instances ks) = if is_instance_klass k then 1 else 0.
Proof.
  intros Hnd Hin. destruct (is_instance_klass k) eqn:Hk.
  - apply occurrences_NoDup.
    + by apply NoDup_filter.
    + by apply list_elem_of_filter.
  - apply occurrences_absent. intros [??]%list_elem_of_filter. congruence.
Qed.

(** ** The JVMCI cleaning task under every schedule *)

Lemma jvmci_unloadings_length h :
  length (jvmci_unloadings h) = total is_jvmci_do_unloading h.
Proof.
  induction h as [|e h IH]; [done|]. rewrite total_cons, <-IH.
  by destruct e.
Qed.

(** The winner of the JVMCI gate, and nobody else, calls
    [JVMCI::do_unloading]. *)
Lemma jvmci_unloaded E N uo rz s :
  reachable E N uo rz s →
  wins JvmciGate (trace s).*2
  = total is_jvmci_do_unloading (trace s).*2
    + total (at_pc L_jvmci_do_unloading) (pcs s).
Proof.
  intros Hs.
  opose proof (ledger E N uo rz (is_ev (EvClaimRet JvmciGate true))
    is_jvmci_do_unloading (λ _, 0) (at_pc L_jvmci_do_unloading) _ _ s Hs) as L.
  - rewrite init_trace. unfold work_entry.
    destruct (StringDedup_is_enabled E), (INCLUDE_JVMCI E); done.
  - intros w l p p' l' evs _ _ Hex.
    destruct l; exec_cases Hex; unfold is_ev, at_pc; simpl; lia.
  - assert (total (λ _ : pc, 0) (pcs s) = 0) as Hz.
    { apply total_zero, Forall_forall; done. }
    rewrite Hz in L. unfold wins. lia.
Qed.

(** The same of each worker by itself: it calls [JVMCI::do_unloading]
    as often as it has won the gate. *)
Lemma jvmci_unloaded_by_winner E N uo rz s w l :
  reachable E N uo rz s → pcs s !! w = Some l →
  wins JvmciGate (events_of (Worker w) (trace s))
  = total is_jvmci_do_unloading (events_of (Worker w) (trace s))
    + at_pc L_jvmci_do_unloading l.
Proof.
  intros Hs. revert w l.
  apply (history E N uo rz
    (λ w l h, wins JvmciGate h
              = total is_jvmci_do_unloading h + at_pc L_jvmci_do_unloading l));
    [| |done].
  - intros w. unfold work_entry. by destruct (INCLUDE_JVMCI E).
  - intros s' w l p' l' evs _ _ IH Hex. unfold wins in *.
    rewrite !total_app, IH. clear IH.
    destruct l; exec_cases Hex; unfold is_ev, at_pc; simpl; lia.
Qed.

(** [JVMCI::do_unloading] is given what the task was constructed with,
    and a pass that does not use the gate makes no call of the JVMCI
    cleaning beyond entering its [work]. *)
Lemma jvmci_events E N uo rz s :
  reachable E N uo rz s →
  Forall (λ b, b = uo) (jvmci_unloadings (trace s).*2)
  ∧ (gate_used E uo JvmciGate = false →
     Forall (λ e, subtask_of e = Some JvmciTask → e = EvWork JvmciTask)
       (trace s).*2).
Proof.
  induction 1 as [|s w l p' l' evs Hr [IH1 IH2] Hl Hex] using reachable_ind.
  - rewrite init_trace.
    destruct (StringDedup_is_enabled E); split; repeat constructor; done.
  - pose proof (reachable_pc_ok _ _ _ _ _ _ _ Hr Hl) as Hok.
    destruct (reachable_task_ok _ _ _ _ _ Hr) as [Ht1 Ht2].
    cbn [trace]. rewrite fmap_app, snd_tagged.
    unfold jvmci_unloadings in *. rewrite omap_app. split.
    + apply Forall_app. split; [done|].
      destruct l; exec_cases Hex; repeat constructor; done.
    + intros Hg. apply Forall_app. split; [auto|].
      destruct l; exec_cases Hex; repeat constructor; try done;
        simpl in *; congruence.
Qed.

(** ** The string deduplication task under every schedule *)

(** What the workers add to the trace: calls of their own, on behalf of
    a sub-task, and none into a disabled string deduplication. *)
Lemma worker_trace E N uo rz s :
  reachable E N uo rz s →
  ∃ wtr,
    trace s = trace (init E N uo rz) ++ wtr
    ∧ Forall (λ te, te.1 ≠ VMThread ∧ subtask_of te.2 ≠ None
                    ∧ (StringDedup_is_enabled E = false →
                       dedup_event te.2 = false)) wtr.
Proof.
  induction 1 as [|s w l p' l' evs Hr (wtr & Htr & Hf) Hl Hex]
    using reachable_ind.
  - exists []. by rewrite app_nil_r.
  - exists (wtr ++ ((λ e, (Worker w, e)) <$> evs)). cbn [trace].
    rewrite Htr, app_assoc. split; [done|].
    apply Forall_app. split; [done|]. apply Forall_fmap.
    destruct l; exec_cases Hex; repeat constructor; done.
Qed.

(** Each worker that has returned has called [parallel_unlink] once,
    with its own id, if string deduplication is enabled. *)
Lemma unlinked_by_worker E N uo rz s w l :
  reachable E N uo rz s → pcs s !! w = Some l →
  unlinks (events_of (Worker w) (trace s))
  = if StringDedup_is_enabled E && dedup_returned l then [w] else [].
Proof.
  intros Hs. revert w l.
  apply (history E N uo rz
    (λ w l h, unlinks h
              = if StringDedup_is_enabled E && dedup_returned l
                then [w] else [])); [| |done].
  - intros w. unfold work_entry.
    by destruct (INCLUDE_JVMCI E), (StringDedup_is_enabled E).
  - intros s' w l p' l' evs _ _ IH Hex. unfold unlinks in *.
    rewrite omap_app, IH. clear IH.
    destruct l; exec_cases Hex;
      rewrite ?andb_false_r, ?andb_true_r, ?app_nil_r; simpl; try done;
      by destruct (StringDedup_is_enabled E).
Qed.

(** ** The order of the sub-tasks of a worker *)

Lemma works_app h1 h2 : works (h1 ++ h2) = works h1 ++ works h2.
Proof. apply omap_app. Qed.

Lemma segmented_app h evs : ∀ c,
  segmented c h →
  segmented (match last h with Some e => subtask_of e | None => c end) evs →
  segmented c (h ++ evs).
Proof.
  induction h as [|e h IH]; intros c Hh Hevs; [done|].
  destruct Hh as [He Hh]. split; [done|]. apply IH; [done|].
  destruct h as [|e0 h]; [done|]. rewrite last_cons_cons in Hevs.
  destruct (last (e0 :: h)) eqn:Hlast; [done|]. by apply last_None in Hlast.
Qed.

Lemma last_task_app h evs :
  last_task (h ++ evs) = match evs with [] => last_task h | _ => last_task evs end.
Proof.
  unfold last_task. destruct evs as [|e evs]; [by rewrite app_nil_r|].
  rewrite last_app. destruct (last (e :: evs)) eqn:Hlast; [done|].
  by apply last_None in Hlast.
Qed.

(** What a worker has called is laid out by where it stands. *)
Lemma worker_order E N uo rz s w l :
  reachable E N uo rz s → pcs s !! w = Some l →
  works (events_of (Worker w) (trace s)) = entered E uo l
  ∧ segmented None (events_of (Worker w) (trace s))
  ∧ last_task (events_of (Worker w) (trace s)) = last (entered E uo l).
Proof.
  intros Hs. revert w l.
  apply (history E N uo rz
    (λ w l h, works h = entered E uo l ∧ segmented None h
              ∧ last_task h = last (entered E uo l))); [| |done].
  - intros w. unfold work_entry, entered.
    by destruct (INCLUDE_JVMCI E).
  - intros s' w l p' l' evs Hr Hl (IH1 & IH2 & IH3) Hex.
    pose proof (reachable_pc_ok _ _ _ _ _ _ _ Hr Hl) as Hok.
    destruct (reachable_task_ok _ _ _ _ _ Hr) as [Ht1 Ht2].
    rewrite works_app, last_task_app, IH1, IH3.
    assert (segmented (last (entered E uo l)) evs →
            segmented None (events_of (Worker w) (trace s') ++ evs)) as Hseg.
    { intros Hevs. apply segmented_app; [done|].
      unfold last_task in IH3.
      destruct (last (events_of (Worker w) (trace s'))); simpl in *;
        by rewrite IH3. }
    clear IH1 IH2 IH3.
    destruct l; exec_cases Hex; unfold entered in *; simpl in *;
      destruct (INCLUDE_JVMCI E) eqn:HI; simpl in *; try done;
      rewrite ?app_nil_r in *;
      repeat match goal with
      | H : ParallelCleaningTask._unloading_occurred _ = _ |- _ =>
          rewrite H in *
      end;
      (split_and!; [done| |done]); apply Hseg; simpl; by eauto 10.
Qed.

(** ** What a worker does in the code cache task *)

(** Until worker 0 enters the code cache task, [_first_nmethod] is the
    first alive method. *)
Lemma first_kept E N uo rz s l :
  reachable E N uo rz s →
  pcs s !! 0 = Some l → cc_entered l = false →
  CodeCacheUnloadingTask._first_nmethod
    (ParallelCleaningTask._code_cache_task (task s)) = head (code_cache E).
Proof.
  intros Hs. revert l.
  induction Hs as [|s w l p' l' evs Hr IH Hl Hex] using reachable_ind;
    intros l0 Hl0 He.
  - by destruct (new_fields E N uo).
  - cbn [task pcs] in *.
    destruct (decide (w = 0)) as [->|Hw].
    + rewrite list_lookup_insert_eq in Hl0 by (by eapply lookup_lt_Some).
      simplify_eq.
      destruct (exec_cc _ _ _ _ _ _ _ Hex)
        as [(nm & _ & -> & -> & _)
           |[(b & lm & -> & _ & -> & _)
           |[(nm & rest & -> & -> & _)
            |(Hcc & _ & _ & _ & _ & _ & _ & Hent & _)]]];
        [done|by destruct b|done|].
      cbv zeta in Hcc. rewrite Hcc. eauto.
    + rewrite list_lookup_insert_ne in Hl0 by done.
      rewrite <-(IH _ Hl0 He).
      destruct (exec_cc _ _ _ _ _ _ _ Hex)
        as [(nm & -> & _)
           |[(b & lm & _ & Hcc & _)
           |[(nm & rest & _ & _ & Hcc & _)
            |(Hcc & _)]]]; [done| | |]; cbv zeta in Hcc; by rewrite Hcc.
Qed.

Lemma cc_calls_app h1 h2 : cc_calls (h1 ++ h2) = cc_calls h1 ++ cc_calls h2.
Proof. apply omap_app. Qed.

Lemma script_snoc uo bs b :
  script uo (bs ++ [b])
  = script uo bs ++ EvClaimNmethods b :: ((λ nm, EvDoUnloading nm uo) <$> b).
Proof. unfold script. by rewrite bind_app, bind_cons, app_nil_r. Qed.

Lemma cc_entered_returned l : cc_entered l = false → cc_returned l = false.
Proof. by destruct l. Qed.

(** The shape of a worker's calls in the code cache task, under every
    schedule. *)
Lemma worker_cc_shape E N uo rz s w l :
  reachable E N uo rz s → pcs s !! w = Some l →
  cc_shape E uo w l (events_of (Worker w) (trace s)).
Proof.
  intros Hs. revert w l.
  apply (history E N uo rz (cc_shape E uo)); [| |done].
  - intros w. unfold work_entry, cc_shape. by destruct (INCLUDE_JVMCI E).
  - intros s' w l p' l' evs Hr Hl IH Hex.
    destruct (reachable_task_ok _ _ _ _ _ Hr) as [_ Huo].
    unfold cc_shape in *. rewrite cc_calls_app.
    destruct (exec_cc _ _ _ _ _ _ _ Hex)
      as [(nm & -> & -> & -> & Hf & _ & _ & _ & Hcalls)
         |[(b & lm & -> & _ & -> & _ & _ & Hcalls)
         |[(nm & rest & -> & -> & _ & _ & _ & Hcalls)
          |(_ & _ & _ & Hp & Hp' & _ & Hent & Hent' & Hret & Hcalls)]]];
      cbv zeta in *; rewrite Hcalls, ?Huo; simpl in *.
    + (* worker 0 unloads the first method *)
      exists []. split; [done|]. rewrite IH. unfold first_call.
      rewrite <-(first_kept _ _ _ _ _ _ Hr Hl eq_refl), Hf. done.
    + (* a batch is returned *)
      destruct IH as (bs & Hbs & IH). rewrite app_nil_r in IH.
      destruct b as [|nm b]; simpl.
      * exists bs. split; [done|]. by rewrite app_nil_r, IH, <-!app_assoc.
      * exists (bs ++ [nm :: b]). split.
        { apply Forall_app. split; [done|]. by apply Forall_singleton. }
        rewrite script_snoc, IH, app_nil_r, <-!app_assoc. simpl.
        by rewrite app_nil_r.
    + (* a claimed method is unloaded *)
      destruct IH as (bs & Hbs & IH). exists bs. split; [done|].
      by rewrite <-IH, <-app_assoc.
    + (* no call of the code cache task *)
      rewrite app_nil_r. rewrite Hp in IH. rewrite Hp'. simpl in *.
      destruct (cc_entered l') eqn:He'.
      * destruct (cc_entered l) eqn:He.
        -- by rewrite <-Hret.
        -- exists []. split; [done|]. rewrite IH.
           rewrite <-Hret, (cc_entered_returned _ He). simpl.
           destruct (Hent eq_refl) as [?|[Hw|Hnone]]; [done| |].
           ++ unfold first_call. by destruct w.
           ++ unfold first_call. destruct w as [|w]; [|done].
              by rewrite <-(first_kept _ _ _ _ _ _ Hr Hl He), Hnone.
      * by rewrite (Hent' eq_refl) in IH.
Qed.

Lemma head_not_in_tail {A} (l : list A) x :
  NoDup l → head l = Some x → x ∉ tail l.
Proof. destruct l; intros Hnd Hh; simplify_eq/=. by apply NoDup_cons in Hnd as [??]. Qed.

(** ** Progress: every pass comes to its end *)

Lemma potential_shift c c' (pcs : list pc) :
  total (potential c') pcs ≤ total (potential c) pcs + 2 * length pcs.
Proof.
  induction pcs as [|l pcs IH]; [done|].
  rewrite !total_cons. simpl length.
  assert (potential c' l ≤ potential c l + 2); [|lia].
  destruct l; simpl; repeat case_decide; lia.
Qed.

Lemma passed_length cache cursor : length (passed cache cursor) ≤ length cache.
Proof. apply prefix_length, passed_prefix. Qed.

(** A step of a worker that has not returned brings the pass nearer to
    its end. *)
Lemma measure_step E N uo rz s w l :
  NoDup (code_cache E) → 1 ≤ MaxClaimNmethods E →
  reachable E N uo rz s →
  pcs s !! w = Some l → l ≠ L_done →
  measure E (step E w s) < measure E s.
Proof.
  intros Hnd HK Hr Hl Hne.
  pose proof (reachable_pc_ok _ _ _ _ _ _ _ Hr Hl) as Hok.
  destruct (reachable_cc E N uo rz _ Hnd HK Hr) as [Hcur _ _ _ _ _ _ _].
  unfold step. rewrite Hl.
  destruct (exec E w l (task s)) as [[p' l'] evs] eqn:Hex.
  unfold measure. cbn [task pcs trace]. rewrite length_insert.
  pose proof (total_insert
    (potential (CodeCacheUnloadingTask._claimed_nmethod
                  (ParallelCleaningTask._code_cache_task p')))
    (pcs s) w l l' Hl) as Hins.
  pose proof (potential_shift
    (CodeCacheUnloadingTask._claimed_nmethod
       (ParallelCleaningTask._code_cache_task (task s)))
    (CodeCacheUnloadingTask._claimed_nmethod
       (ParallelCleaningTask._code_cache_task p')) (pcs s)) as Hshift.
  destruct s as [[puo sd [cuo nw first cursor] jv [flag it]] ps tr].
  cbn [task pcs trace] in *.
  destruct l; try done; exec_cases Hex;
    rewrite ?decide_True in Hins by done;
    rewrite ?decide_False in Hins by done;
    try lia.
  - (* the compare-and-exchange succeeds: an empty batch *)
    destruct first0 as [x|].
    + destruct (walk_spec E x [] last_method Hnd (Hcur _ eq_refl) Hok)
        as (Hpass & _ & _ & Hemp).
      rewrite (Hemp HK eq_refl) in *. unfold remaining.
      cbn [passed] in *. rewrite app_nil_r in Hpass.
      pose proof (passed_length (code_cache E) (Some x)) as Hle.
      cbn [passed] in Hle. rewrite Hpass.
      case_decide; [done|]. nia.
    + rewrite walk_None in Hok. simplify_eq.
      rewrite decide_True in Hins by done. lia.
  - (* the compare-and-exchange succeeds: a batch *)
    destruct first0 as [x|]; [|by rewrite walk_None in Hok].
    destruct (walk_spec E x _ last_method Hnd (Hcur _ eq_refl) Hok)
      as (Hpass & _ & _ & _).
    unfold remaining. cbn [passed] in *.
    pose proof (passed_length (code_cache E) last_method) as Hle.
    rewrite Hpass in *. rewrite length_app in *. simpl length in *.
    assert (potential last_method (L_cc_cmpxchg (Some x) (c :: l) last_method) ≥ 7)
      as Hpot by (simpl; case_decide; lia).
    cbn [potential] in Hpot.
    assert ((2 * length ps + 4) * S (length l)
            ≥ 2 * length ps + 4 + length l) as Hmul by nia.
    replace (length (code_cache E) - length (upto (code_cache E) x) + 1)
      with ((length (code_cache E)
             - (length (upto (code_cache E) x) + S (length l)) + 1)
            + S (length l)) by lia.
    rewrite (Nat.mul_add_distr_l _ _ (S (length l))).
    destruct last_method;
      rewrite ?Nat.add_0_r;
      [|assert ((2 * length ps + 4)
                * (length (code_cache E)
                   - (length (upto (code_cache E) x) + S (length l)))
                ≤ (2 * length ps + 4)
                  * (length (code_cache E)
                     - (length (upto (code_cache E) x) + S (length l)) + 1))
         by (apply Nat.mul_le_mono_l; lia)];
      lia.
Qed.

Lemma step_returned E w s :
  pcs s !! w = Some L_done → step E w s = s.
Proof.
  intros Hl. unfold step. rewrite Hl. simpl.
  rewrite list_insert_id, app_nil_r by done. by destruct s.
Qed.

Lemma step_absent E w s : pcs s !! w = None → step E w s = s.
Proof. intros Hl. unfold step. by rewrite Hl. Qed.

Lemma step_le E N uo rz s w :
  NoDup (code_cache E) → 1 ≤ MaxClaimNmethods E →
  reachable E N uo rz s →
  measure E (step E w s) ≤ measure E s.
Proof.
  intros Hnd HK Hr. destruct (pcs s !! w) as [l|] eqn:Hl.
  - destruct (decide (l = L_done)) as [->|Hne].
    + by rewrite step_returned.
    + pose proof (measure_step E N uo rz s w l Hnd HK Hr Hl Hne). lia.
  - by rewrite step_absent.
Qed.

Lemma reachable_run_from E N uo rz s sched :
  reachable E N uo rz s → reachable E N uo rz (run E sched s).
Proof.
  intros [sched0 ->]. exists (sched0 ++ sched). by rewrite run_app.
Qed.

Lemma run_le E N uo rz sched : ∀ s,
  NoDup (code_cache E) → 1 ≤ MaxClaimNmethods E →
  reachable E N uo rz s →
  measure E (run E sched s) ≤ measure E s.
Proof.
  induction sched as [|w sched IH]; intros s Hnd HK Hr; [done|].
  change (run E (w :: sched) s) with (run E sched (step E w s)).
  etrans; [apply IH; eauto using reachable_step|].
  by eapply step_le.
Qed.

Lemma step_other E w w' s : w ≠ w' → pcs (step E w s) !! w' = pcs s !! w'.
Proof.
  intros Hne. unfold step. destruct (pcs s !! w) as [l|]; [|done].
  destruct (exec E w l (task s)) as [[p' l'] evs]. simpl.
  by apply list_lookup_insert_ne.
Qed.

Lemma run_other E sched w' : ∀ s,
  w' ∉ sched → pcs (run E sched s) !! w' = pcs s !! w'.
Proof.
  induction sched as [|w sched IH]; intros s Hw; [done|].
  apply not_elem_of_cons in Hw as [??].
  change (run E (w :: sched) s) with (run E sched (step E w s)).
  rewrite IH by done. by apply step_other.
Qed.

Lemma run_returned E sched : ∀ s,
  all_returned s = true → run E sched s = s.
Proof.
  induction sched as [|w sched IH]; intros s Hall; [done|].
  change (run E (w :: sched) s) with (run E sched (step E w s)).
  destruct (pcs s !! w) as [l|] eqn:Hl.
  - rewrite (all_returned_lookup _ _ _ Hall Hl) in Hl.
    rewrite step_returned by done. auto.
  - rewrite step_absent by done. auto.
Qed.

(** When every worker has been given one turn and not all had
    returned, the pass has come nearer to its end. *)
Lemma round_lt E N uo rz s :
  NoDup (code_cache E) → 1 ≤ MaxClaimNmethods E →
  reachable E N uo rz s →
  all_returned s = false →
  measure E (run E (seq 0 N) s) < measure E s.
Proof.
  intros Hnd HK Hr Hall.
  assert (∃ w l, pcs s !! w = Some l ∧ l ≠ L_done) as (w & l & Hl & Hne).
  { unfold all_returned in Hall.
    destruct (Exists_dec (λ l, l ≠ L_done) (pcs s)) as [Hex|Hnex].
    - apply Exists_exists in Hex as (l & Hin & Hne).
      apply list_elem_of_lookup_1 in Hin as [w Hw]. eauto.
    - exfalso. apply not_Exists_Forall in Hnex; [|apply _].
      assert (forallb returned (pcs s) = true); [|congruence].
      apply Is_true_true, forallb_True. eapply Forall_impl; [done|].
      intros l' Hl'. simpl in Hl'. apply dec_stable in Hl'. by subst. }
  pose proof (lookup_lt_Some _ _ _ Hl) as Hlt.
  rewrite (reachable_length _ _ _ _ _ Hr) in Hlt.
  replace N with (w + S (N - S w)) by lia.
  rewrite seq_app. simpl. rewrite run_app.
  change (run E (w :: ?ws) ?s0) with (run E ws (step E w s0)).
  pose proof (reachable_run_from E N uo rz s (seq 0 w) Hr) as Hr1.
  pose proof (run_le E N uo rz (seq 0 w) s Hnd HK Hr) as Hle1.
  assert (pcs (run E (seq 0 w) s) !! w = Some l) as Hl1.
  { rewrite run_other; [done|]. rewrite list_elem_of_In, in_seq. lia. }
  pose proof (measure_step E N uo rz _ w l Hnd HK Hr1 Hl1 Hne) as Hlt2.
  pose proof (run_le E N uo rz (seq (S w) (N - S w)) _ Hnd HK
                (reachable_step _ _ _ _ _ w Hr1)) as Hle3.
  lia.
Qed.

(** From every state that some schedule leads to, the workers return
    when each is given its turn often enough: no worker can be kept
    from returning by the others. *)
Lemma rounds_complete E N uo rz r : ∀ s,
  NoDup (code_cache E) → 1 ≤ MaxClaimNmethods E →
  reachable E N uo rz s →
  measure E s ≤ r →
  all_returned (run E (round_robin N r) s) = true.
Proof.
  induction r as [|r IH]; intros s Hnd HK Hr Hm.
  - destruct (all_returned s) eqn:Hall; [done|].
    pose proof (round_lt E N uo rz s Hnd HK Hr Hall). lia.
  - destruct (all_returned s) eqn:Hall; [by rewrite run_returned|].
    pose proof (round_lt E N uo rz s Hnd HK Hr Hall) as Hlt.
    change (round_robin N (S r)) with (seq 0 N ++ round_robin N r).
    rewrite run_app. apply IH; [done..| |lia].
    by apply reachable_run_from.
Qed.

(** Whatever the workers have done so far, the pass comes to its end:
    all workers return once each has been given as many turns as the
    measure of the state says. *)
Lemma pass_completes E N uo rz sched :
  NoDup (code_cache E) → 1 ≤ MaxClaimNmethods E →
  all_returned
    (after E N uo rz
       (sched ++ round_robin N (measure E (after E N uo rz sched)))) = true.
Proof.
  intros Hnd HK. unfold after. rewrite run_app.
  eapply rounds_complete; eauto using reachable_run.
Qed.

Lemma all_returned_cc s : all_returned s = true → all_cc_returned s = true.
Proof.
  unfold all_returned, all_cc_returned.
  intros H%Is_true_true%forallb_True.
  apply Is_true_true, forallb_True. eapply Forall_impl; [done|].
  by intros [].
Qed.

(** * The properties of a pass *)

(** C1: whatever the [N] workers have done so far, they all return
    from [CodeCacheUnloadingTask::work] when each is given its turn; and
    when they all have returned, by whatever schedule, the methods that
    [do_unloading] was called on are the alive methods of the code
    cache, each of them once. *)
Theorem exactly_once_unload E N uo rz sched :
  1 ≤ N → 1 ≤ MaxClaimNmethods E → NoDup (code_cache E) →
  all_cc_returned
    (after E N uo rz
       (sched ++ round_robin N (measure E (after E N uo rz sched)))) = true
  ∧ (all_cc_returned (after E N uo rz sched) = true →
     unloaded (trace (after E N uo rz sched)).*2 ≡ₚ code_cache E
     ∧ ∀ nm, nm ∈ code_cache E →
         occurrences nm (unloaded (trace (after E N uo rz sched)).*2) = 1).
Proof.
  intros HN HK Hnd. split; [by apply all_returned_cc, pass_completes|].
  intros Hall.
  pose proof (reachable_run E N uo rz sched) as Hr.
  fold (after E N uo rz sched) in Hr.
  destruct (reachable_cc E N uo rz _ Hnd HK Hr)
    as [Hcur Hfh Hfc Hb Hsz Hu Hep Heb].
  apply all_cc_returned_Forall in Hall.
  destruct (first_worker _ _ _ _ _ Hr HN) as [l Hl].
  pose proof (Forall_lookup_1 _ _ _ _ Hall Hl) as Hret.
  rewrite (Hep l) in Hu by (by eauto using list_elem_of_lookup_2).
  rewrite (Hfc l) in Hu by (by destruct l).
  rewrite holding_returned, app_nil_r in Hu by done.
  simpl in Hu. rewrite head_tail in Hu.
  split; [done|]. intros nm Hnm.
  rewrite (occurrences_Permutation _ _ _ Hu). by apply occurrences_NoDup.
Qed.

Lemma exactly_once_unload_witness :
  unloaded (trace (after env_ex 4 true false (round_robin 4 60))).*2
    ≡ₚ code_cache env_ex
  ∧ ∀ nm, nm ∈ code_cache env_ex →
      occurrences nm
        (unloaded (trace (after env_ex 4 true false (round_robin 4 60))).*2) = 1.
Proof.
  apply (exactly_once_unload env_ex 4 true false (round_robin 4 60)).
  - lia.
  - vm_compute. lia.
  - apply (bool_decide_unpack _). vm_compute. exact I.
  - vm_compute. reflexivity.
Defined.

(** C2: under every schedule, each batch that [claim_nmethods] has
    returned holds at most [MaxClaimNmethods] methods; the batches, in
    the order of their return, make up a beginning of the alive methods
    after the first one, so no method is returned twice; a call is about
    to return the empty batch only when no alive method follows the
    cursor, and once an empty batch has been returned all of the methods
    after the first one have been returned; when the workers have
    returned the batches are exactly these methods; and whatever the
    workers have done so far, they get there when each is given its
    turn. *)
Theorem claim_nmethods_partition E N uo rz sched :
  1 ≤ MaxClaimNmethods E → NoDup (code_cache E) →
  Forall (λ b, length b ≤ MaxClaimNmethods E)
    (batches (trace (after E N uo rz sched)).*2)
  ∧ NoDup (mjoin (batches (trace (after E N uo rz sched)).*2))
  ∧ mjoin (batches (trace (after E N uo rz sched)).*2)
      `prefix_of` tail (code_cache E)
  ∧ (∀ w nm last_method,
       pcs (after E N uo rz sched) !! w
         = Some (L_cc_cmpxchg (Some nm) [] last_method) →
       CodeCacheUnloadingTask._claimed_nmethod
         (ParallelCleaningTask._code_cache_task (task (after E N uo rz sched)))
         = Some nm →
       CompiledMethodIterator.next_alive (code_cache E) nm = None)
  ∧ ([] ∈ batches (trace (after E N uo rz sched)).*2 →
     mjoin (batches (trace (after E N uo rz sched)).*2) = tail (code_cache E))
  ∧ (1 ≤ N → all_cc_returned (after E N uo rz sched) = true →
     mjoin (batches (trace (after E N uo rz sched)).*2) = tail (code_cache E))
  ∧ (1 ≤ N →
     all_cc_returned
       (after E N uo rz
          (sched ++ round_robin N (measure E (after E N uo rz sched)))) = true
     ∧ mjoin (batches
                (trace (after E N uo rz
                          (sched ++ round_robin N
                                      (measure E (after E N uo rz sched))))).*2)
       = tail (code_cache E)).
Proof.
  intros HK Hnd.
  assert (∀ s, reachable E N uo rz s → 1 ≤ N → all_cc_returned s = true →
            mjoin (batches (trace s).*2) = tail (code_cache E)) as Hend.
  { intros s Hs HN Hall.
    destruct (reachable_cc E N uo rz _ Hnd HK Hs) as [_ _ _ Hb _ _ Hep _].
    apply all_cc_returned_Forall in Hall.
    destruct (first_worker _ _ _ _ _ Hs HN) as [l Hl].
    pose proof (Forall_lookup_1 _ _ _ _ Hall Hl) as Hret.
    by rewrite Hb, (Hep l) by (by eauto using list_elem_of_lookup_2). }
  pose proof (reachable_run E N uo rz sched) as Hr.
  fold (after E N uo rz sched) in Hr.
  destruct (reachable_cc E N uo rz _ Hnd HK Hr)
    as [Hcur Hfh Hfc Hb Hsz Hu Hep Heb].
  assert (mjoin (batches (trace (after E N uo rz sched)).*2)
            `prefix_of` tail (code_cache E)) as Hpre.
  { rewrite Hb. apply tail_prefix, passed_prefix. }
  split_and!; [done| |done| | | |].
  - eapply NoDup_prefix; [done|]. by apply NoDup_tail.
  - intros w nm lm Hl Hc.
    pose proof (reachable_pc_ok _ _ _ _ _ _ _ Hr Hl) as Hok.
    eapply walk_empty; eauto.
  - intros Hin. by rewrite Hb, (Heb Hin).
  - intros HN Hall. by apply Hend.
  - intros HN.
    pose proof (all_returned_cc _ (pass_completes E N uo rz sched Hnd HK))
      as Hall.
    split; [done|]. apply Hend; [apply (reachable_run E N uo rz)|done..].
Qed.

(** In a pass of four workers over ten methods that has come to its end
    the batches returned are three, of four, four and one method, and
    four empty ones; a pass that is under way comes to its end; and
    with batches of three the worker that finds the cursor on the last
    method is about to return the empty batch. *)
Lemma claim_nmethods_partition_witness :
  (Forall (λ b, length b ≤ MaxClaimNmethods env_ex)
     (batches (trace (after env_ex 4 true false (round_robin 4 60))).*2)
   ∧ NoDup (mjoin (batches (trace (after env_ex 4 true false
                                     (round_robin 4 60))).*2))
   ∧ mjoin (batches (trace (after env_ex 4 true false (round_robin 4 60))).*2)
     = tail (code_cache env_ex))
  ∧ (all_cc_returned
       (after env_ex 4 true false
          (round_robin 4 8
           ++ round_robin 4
                (measure env_ex
                   (after env_ex 4 true false (round_robin 4 8))))) = true
     ∧ mjoin (batches
                (trace (after env_ex 4 true false
                          (round_robin 4 8
                           ++ round_robin 4
                                (measure env_ex
                                   (after env_ex 4 true false
                                      (round_robin 4 8)))))).*2)
       = tail (code_cache env_ex))
  ∧ CompiledMethodIterator.next_alive (code_cache env_three) 9 = None.
Proof.
  assert (NoDup (seq 0 10)) as Hnd
    by (apply (bool_decide_unpack _); vm_compute; exact I).
  split; [|split].
  - destruct (claim_nmethods_partition env_ex 4 true false (round_robin 4 60))
      as (Hsz & Hno & _ & _ & Hemp & Hall & _);
      [vm_compute; lia|exact Hnd|].
    split; [exact Hsz|]. split; [exact Hno|].
    apply Hall; [lia|vm_compute; reflexivity].
  - destruct (claim_nmethods_partition env_ex 4 true false (round_robin 4 8))
      as (_ & _ & _ & _ & _ & _ & Hprog);
      [vm_compute; lia|exact Hnd|].
    apply Hprog. lia.
  - destruct (claim_nmethods_partition env_three 4 true false
                (round_robin 4 11))
      as (_ & _ & _ & Hwalk & _);
      [vm_compute; lia|exact Hnd|].
    apply (Hwalk 1 9 None); vm_compute; reflexivity.
Defined.

(** C3: once the calls of a gate's claim have all returned, and there
    was at least one, exactly one of them has returned true and every
    other one false, whatever the schedule; and when all workers have
    returned from a pass that uses the gate, each of the [N] workers has
    called it. *)
Theorem single_claim_exclusivity E N uo rz sched g n :
  claim_pending g (after E N uo rz sched) = 0 →
  calls g (trace (after E N uo rz sched)).*2 = n →
  1 ≤ n →
  wins g (trace (after E N uo rz sched)).*2 = 1
  ∧ losses g (trace (after E N uo rz sched)).*2 = n - 1
  ∧ (all_returned (after E N uo rz sched) = true →
     gate_used E uo g = true → n = N).
Proof.
  intros Hpend Hn Hpos.
  pose proof (reachable_run E N uo rz sched) as Hr.
  fold (after E N uo rz sched) in Hr.
  destruct (gate_flag E N uo rz g _ Hr) as (Hf & Hw & Hl0).
  pose proof (gate_calls E N uo rz g _ Hr) as Hc.
  unfold claim_pending in Hpend. rewrite Hpend, Hn in Hc.
  split_and!.
  - destruct Hf as [Hf|Hf]; rewrite Hf in *; simpl in *; [|lia].
    specialize (Hl0 eq_refl). lia.
  - destruct Hf as [Hf|Hf]; rewrite Hf in *; simpl in *; [|lia].
    specialize (Hl0 eq_refl). lia.
  - intros Hall Hused.
    pose proof (gate_called E N uo rz g _ Hr) as Hcd.
    rewrite Hn, (all_returned_total _ _ Hall) in Hcd.
    rewrite (reachable_length _ _ _ _ _ Hr) in Hcd.
    destruct g; simpl in *; rewrite Hused in Hcd; lia.
Qed.

Lemma single_claim_exclusivity_witness :
  wins KlassTreeGate (trace (after env_ex 4 true false (round_robin 4 60))).*2 = 1
  ∧ losses KlassTreeGate (trace (after env_ex 4 true false (round_robin 4 60))).*2 = 4 - 1
  ∧ (all_returned (after env_ex 4 true false (round_robin 4 60)) = true →
     gate_used env_ex true KlassTreeGate = true → 4 = 4).
Proof.
  apply (single_claim_exclusivity env_ex 4 true false (round_robin 4 60)
           KlassTreeGate 4).
  - vm_compute. reflexivity.
  - vm_compute. reflexivity.
  - lia.
Defined.

(** C4: under every schedule a worker that has returned from
    [ParallelCleaningTask::work] has entered the JVMCI cleaning (where
    JVMCI is compiled in), the code cache unloading, the string
    deduplication cleaning and, if and only if unloading occurred, the
    klass cleaning, in this order, and has made every call on behalf of
    the sub-task that it had entered last. *)
Theorem subtask_order E N uo rz sched w :
  pcs (after E N uo rz sched) !! w = Some L_done →
  works (events_of (Worker w) (trace (after E N uo rz sched)))
  = (if INCLUDE_JVMCI E then [JvmciTask] else [])
    ++ [CodeCacheTask; StringDedupTask]
    ++ (if uo then [KlassTask] else [])
  ∧ segmented None (events_of (Worker w) (trace (after E N uo rz sched))).
Proof.
  intros Hl.
  pose proof (reachable_run E N uo rz sched) as Hr.
  fold (after E N uo rz sched) in Hr.
  by destruct (worker_order _ _ _ _ _ _ _ Hr Hl) as (? & ? & _).
Qed.

Lemma subtask_order_witness :
  works (events_of (Worker 3) (trace (after env_ex 4 true false (round_robin 4 60))))
  = (if INCLUDE_JVMCI env_ex then [JvmciTask] else [])
    ++ [CodeCacheTask; StringDedupTask]
    ++ (if true then [KlassTask] else [])
  ∧ segmented None
      (events_of (Worker 3) (trace (after env_ex 4 true false (round_robin 4 60)))).
Proof.
  apply (subtask_order env_ex 4 true false (round_robin 4 60) 3).
  vm_compute. reflexivity.
Defined.

(** C5: a pass without unloading does nothing of the klass cleaning,
    under every schedule and at every moment: no worker enters the task,
    none calls the claim of the subklass tree, the tree is not cleaned,
    no class is taken from the iterator or cleaned, and the task is as
    it was constructed.  A pass with unloading comes to its end
    whatever its workers have done so far; when they have returned the
    subklass tree has been cleaned once, every instance class has been
    cleaned, and the iterator is exhausted. *)
Theorem conditional_klass_cleaning E N rz sched sched' :
  (Forall (λ e, subtask_of e ≠ Some KlassTask) (trace (after E N false rz sched)).*2
   ∧ calls KlassTreeGate (trace (after E N false rz sched)).*2 = 0
   ∧ total (is_ev EvCleanSubklassTree) (trace (after E N false rz sched)).*2 = 0
   ∧ claimed_klasses (trace (after E N false rz sched)).*2 = []
   ∧ cleaned (trace (after E N false rz sched)).*2 = []
   ∧ ParallelCleaningTask._klass_cleaning_task (task (after E N false rz sched))
     = KlassCleaningTask.new E)
  ∧ (NoDup (code_cache E) → 1 ≤ MaxClaimNmethods E →
     all_returned
       (after E N true rz
          (sched' ++ round_robin N (measure E (after E N true rz sched')))) = true)
  ∧ (1 ≤ N → all_returned (after E N true rz sched') = true →
     total (is_ev EvCleanSubklassTree) (trace (after E N true rz sched')).*2 = 1
     ∧ cleaned (trace (after E N true rz sched')).*2 ≡ₚ instances (class_graph E)
     ∧ KlassCleaningTask._klass_iterator
         (ParallelCleaningTask._klass_cleaning_task (task (after E N true rz sched')))
       = []).
Proof.
  split; [|split].
  - pose proof (reachable_run E N false rz sched) as Hr.
    fold (after E N false rz sched) in Hr.
    destruct (reachable_klass _ _ _ _ _ Hr) as [_ _ _ Hidle].
    destruct (Hidle eq_refl) as [Hk Hf].
    split_and!; [done| | | | |done].
    + eapply total_absent; [done|]. intros e He. unfold is_ev.
      case_decide; [subst; done|done].
    + eapply total_absent; [done|]. intros e He. unfold is_ev.
      case_decide; [subst; done|done].
    + eapply omap_absent; [done|]. by intros [| | | | | | | | | | | | |[]] He.
    + eapply omap_absent; [done|]. by intros [] He.
  - intros Hnd HK. by apply pass_completes.
  - intros HN Hall.
    pose proof (reachable_run E N true rz sched') as Hr.
    fold (after E N true rz sched') in Hr.
    destruct (reachable_klass _ _ _ _ _ Hr) as [Hc Hcl Hend _].
    destruct (first_worker _ _ _ _ _ Hr HN) as [l Hl].
    pose proof (all_returned_lookup _ _ _ Hall Hl) as ->.
    specialize (Hend _ (list_elem_of_lookup_2 _ _ _ Hl) eq_refl eq_refl).
    split_and!; [| |done].
    + pose proof (tree_cleaned _ _ _ _ _ Hr) as Ht.
      rewrite (all_returned_total _ _ Hall) in Ht.
      change (at_pc L_klass_tree L_done) with 0 in Ht.
      destruct (single_claim_cases E N true rz _ KlassTreeGate Hr) as [Hw|Hw]; [|lia].
      pose proof (gate_called _ _ _ _ KlassTreeGate _ Hr) as Hcd.
      rewrite (all_returned_total _ _ Hall) in Hcd.
      rewrite (reachable_length _ _ _ _ _ Hr) in Hcd. simpl in Hcd.
      pose proof (gate_calls _ _ _ _ KlassTreeGate _ Hr) as Hcs.
      rewrite (all_returned_total _ _ Hall) in Hcs. simpl in Hcs.
      destruct Hw as [Hw Hlo]. lia.
    + rewrite (bind_returned cleaning), app_nil_r in Hcl by done.
      rewrite Hend in Hc. unfold instances in Hc at 1.
      rewrite filter_nil, app_nil_r in Hc. by rewrite Hcl, Hc.
Qed.

Lemma conditional_klass_cleaning_witness :
  total (is_ev EvCleanSubklassTree)
    (trace (after env_ex 4 true false (round_robin 4 60))).*2 = 1
  ∧ cleaned (trace (after env_ex 4 true false (round_robin 4 60))).*2
    ≡ₚ instances (class_graph env_ex)
  ∧ KlassCleaningTask._klass_iterator
      (ParallelCleaningTask._klass_cleaning_task
         (task (after env_ex 4 true false (round_robin 4 60))))
    = [].
Proof.
  apply (conditional_klass_cleaning env_ex 4 false [] (round_robin 4 60)).
  - lia.
  - vm_compute. reflexivity.
Defined.

(** C6: [claim_next_klass] pulls classes until it meets an instance
    class or the end, so it returns an instance class or NULL.  Under
    every schedule the classes returned and the classes cleaned are
    instance classes, returned in the order of the class graph and none
    of them twice; when the workers of a pass with unloading have
    returned, the classes returned, and cleaned, are the instance
    classes of the class graph, each once, and no other class. *)
Theorem claim_next_klass_filters E N uo rz sched :
  (∀ it,
     match KlassCleaningTask.claim_next_klass it with
     | (Some k, it') =>
         is_instance_klass k = true
         ∧ ∃ skipped, it = skipped ++ k :: it'
                      ∧ Forall (λ k', is_instance_klass k' = false) skipped
     | (None, it') =>
         it' = [] ∧ Forall (λ k', is_instance_klass k' = false) it
     end)
  ∧ Forall (λ k, is_instance_klass k = true)
      (claimed_klasses (trace (after E N uo rz sched)).*2)
  ∧ Forall (λ k, is_instance_klass k = true)
      (cleaned (trace (after E N uo rz sched)).*2)
  ∧ claimed_klasses (trace (after E N uo rz sched)).*2
      `prefix_of` instances (class_graph E)
  ∧ (uo = true → 1 ≤ N → all_returned (after E N uo rz sched) = true →
     claimed_klasses (trace (after E N uo rz sched)).*2 = instances (class_graph E)
     ∧ cleaned (trace (after E N uo rz sched)).*2 ≡ₚ instances (class_graph E)
     ∧ (NoDup (class_graph E) → ∀ k, k ∈ class_graph E →
        occurrences k (claimed_klasses (trace (after E N uo rz sched)).*2)
          = (if is_instance_klass k then 1 else 0)
        ∧ occurrences k (cleaned (trace (after E N uo rz sched)).*2)
          = (if is_instance_klass k then 1 else 0))).
Proof.
  pose proof (reachable_run E N uo rz sched) as Hr.
  fold (after E N uo rz sched) in Hr.
  destruct (reachable_klass _ _ _ _ _ Hr) as [Hc Hcl Hend _].
  assert (Forall (λ k, is_instance_klass k = true)
            (claimed_klasses (trace (after E N uo rz sched)).*2)) as Hinst.
  { pose proof (instances_Forall (class_graph E)) as Hf.
    rewrite <-Hc in Hf. by apply Forall_app in Hf as [? _]. }
  split_and!; [apply claim_next_klass_spec|done| |by eexists|].
  - eapply Forall_forall. intros k Hk. eapply (Forall_forall _ _ ) in Hinst; [done|].
    rewrite <-Hcl. apply elem_of_app. by left.
  - intros -> HN Hall.
    destruct (first_worker _ _ _ _ _ Hr HN) as [l Hl].
    pose proof (all_returned_lookup _ _ _ Hall Hl) as ->.
    specialize (Hend _ (list_elem_of_lookup_2 _ _ _ Hl) eq_refl eq_refl).
    rewrite (bind_returned cleaning), app_nil_r in Hcl by done.
    rewrite Hend in Hc. unfold instances in Hc at 1.
    rewrite filter_nil, app_nil_r in Hc.
    split_and!; [done|by rewrite Hcl, Hc|].
    intros Hnd k Hk.
    rewrite (occurrences_Permutation _ _ _ Hcl), Hc.
    split; by apply occurrences_instances.
Qed.

Lemma claim_next_klass_filters_witness :
  claimed_klasses (trace (after env_ex 4 true false (round_robin 4 60))).*2
    = instances (class_graph env_ex)
  ∧ cleaned (trace (after env_ex 4 true false (round_robin 4 60))).*2
    ≡ₚ instances (class_graph env_ex)
  ∧ (NoDup (class_graph env_ex) → ∀ k, k ∈ class_graph env_ex →
     occurrences k (claimed_klasses (trace (after env_ex 4 true false (round_robin 4 60))).*2)
       = (if is_instance_klass k then 1 else 0)
     ∧ occurrences k (cleaned (trace (after env_ex 4 true false (round_robin 4 60))).*2)
       = (if is_instance_klass k then 1 else 0)).
Proof.
  apply (claim_next_klass_filters env_ex 4 true false (round_robin 4 60)).
  - reflexivity.
  - lia.
  - vm_compute. reflexivity.
Defined.

(** C7: the constructor records the first alive method as
    [_first_nmethod] and as [_claimed_nmethod], before any worker has
    made a step.  A worker that has returned from
    [CodeCacheUnloadingTask::work] has, under every schedule, called
    the following and nothing else of the code cache task: worker 0
    first [do_unloading] on that first method, which no batch holds;
    then every worker in rounds [claim_nmethods], which returned a batch
    that was not empty, and [do_unloading(unloading_occurred)] on each
    method of the batch in order; and at last [claim_nmethods], which
    returned no method. *)
Theorem code_cache_work_shape E N uo rz sched w l :
  1 ≤ MaxClaimNmethods E → NoDup (code_cache E) →
  pcs (after E N uo rz sched) !! w = Some l → cc_returned l = true →
  CodeCacheUnloadingTask._first_nmethod (CodeCacheUnloadingTask.new E N uo)
    = head (code_cache E)
  ∧ CodeCacheUnloadingTask._claimed_nmethod (CodeCacheUnloadingTask.new E N uo)
    = head (code_cache E)
  ∧ ParallelCleaningTask._code_cache_task (task (after E N uo rz []))
    = CodeCacheUnloadingTask.new E N uo
  ∧ (∃ bs, Forall (λ b, b ≠ []) bs
           ∧ cc_calls (events_of (Worker w) (trace (after E N uo rz sched)))
             = first_call E uo w ++ script uo bs ++ [EvClaimNmethods []])
  ∧ (∀ nm b, head (code_cache E) = Some nm →
       b ∈ batches (trace (after E N uo rz sched)).*2 → nm ∉ b).
Proof.
  intros HK Hnd Hl Hret.
  pose proof (reachable_run E N uo rz sched) as Hr.
  fold (after E N uo rz sched) in Hr.
  destruct (new_fields E N uo) as [Hf Hc].
  split_and!; [done..| |].
  - pose proof (worker_cc_shape _ _ _ _ _ _ _ Hr Hl) as Hs.
    unfold cc_shape in Hs. rewrite Hret in Hs.
    replace (cc_entered l) with true in Hs by (by destruct l).
    replace (pending l) with (@nil CompiledMethod) in Hs by (by destruct l).
    destruct Hs as (bs & Hbs & Hs). exists bs. split; [done|].
    by rewrite <-Hs, app_nil_r.
  - intros nm b Hnm Hb Hin.
    destruct (reachable_cc E N uo rz _ Hnd HK Hr) as [_ _ _ Hbat _ _ _ _].
    apply (head_not_in_tail _ _ Hnd Hnm).
    eapply elem_of_prefix; [|apply tail_prefix, passed_prefix].
    rewrite <-Hbat. apply list_elem_of_join. eauto.
Qed.

Lemma code_cache_work_shape_witness :
  CodeCacheUnloadingTask._first_nmethod (CodeCacheUnloadingTask.new env_ex 4 true)
    = head (code_cache env_ex)
  ∧ CodeCacheUnloadingTask._claimed_nmethod (CodeCacheUnloadingTask.new env_ex 4 true)
    = head (code_cache env_ex)
  ∧ ParallelCleaningTask._code_cache_task (task (after env_ex 4 true false []))
    = CodeCacheUnloadingTask.new env_ex 4 true
  ∧ (∃ bs, Forall (λ b, b ≠ []) bs
           ∧ cc_calls (events_of (Worker 0)
                         (trace (after env_ex 4 true false (round_robin 4 60))))
             = first_call env_ex true 0 ++ script true bs ++ [EvClaimNmethods []])
  ∧ (∀ nm b, head (code_cache env_ex) = Some nm →
       b ∈ batches (trace (after env_ex 4 true false (round_robin 4 60))).*2 →
       nm ∉ b).
Proof.
  apply (code_cache_work_shape env_ex 4 true false (round_robin 4 60) 0 L_done).
  - vm_compute. lia.
  - apply (bool_decide_unpack _). vm_compute. exact I.
  - vm_compute. reflexivity.
  - reflexivity.
Defined.

(** C8: with string deduplication disabled a whole pass, from the
    construction of the task to its destruction, makes no call of
    [gc_prologue], [gc_epilogue] or [parallel_unlink], whatever the
    schedule.  With it enabled the constructor calls [gc_prologue] with
    the resize request and the destructor calls [gc_epilogue]; these are
    the first and the last call of the pass and the only calls of the
    two, and each worker that has returned has called
    [parallel_unlink] once, with its id. *)
Theorem string_dedup_bracket E N uo rz sched :
  (StringDedup_is_enabled E = false →
     Forall (λ e, dedup_event e = false) (trace (pass E N uo rz sched)).*2)
  ∧ (StringDedup_is_enabled E = true →
     (StringDedupCleaningTask.new E rz).2 = [EvGcPrologue rz]
     ∧ StringDedupCleaningTask.delete E (StringDedupCleaningTask.new E rz).1
       = [EvGcEpilogue]
     ∧ prologues (trace (pass E N uo rz sched)).*2 = [rz]
     ∧ total (is_ev EvGcEpilogue) (trace (pass E N uo rz sched)).*2 = 1
     ∧ head (trace (pass E N uo rz sched)) = Some (VMThread, EvGcPrologue rz)
     ∧ last (trace (pass E N uo rz sched)) = Some (VMThread, EvGcEpilogue)
     ∧ (∀ w l, pcs (pass E N uo rz sched) !! w = Some l →
        dedup_returned l = true →
        unlinks (events_of (Worker w) (trace (pass E N uo rz sched))) = [w])).
Proof.
  pose proof (reachable_run E N uo rz sched) as Hr.
  fold (after E N uo rz sched) in Hr.
  destruct (worker_trace _ _ _ _ _ Hr) as (wtr & Htr & Hf).
  assert (Forall (λ e, subtask_of e ≠ None
                       ∧ (StringDedup_is_enabled E = false →
                          dedup_event e = false)) wtr.*2) as Hf'.
  { apply Forall_fmap. eapply Forall_impl; [done|]. by intros te (?&?&?). }
  assert (trace (pass E N uo rz sched)
          = (if StringDedup_is_enabled E
             then [(VMThread, EvGcPrologue rz)] else [])
            ++ wtr
            ++ [(VMThread, EvVerifyCleanInlineCaches);
                (VMThread, EvVerifyIcholderRelocations)]
            ++ (if StringDedup_is_enabled E
                then [(VMThread, EvGcEpilogue)] else [])) as Hpass.
  { unfold pass, finish. cbn [trace]. rewrite Htr, <-app_assoc.
    unfold init, ParallelCleaningTask.delete, CodeCacheUnloadingTask.delete,
      StringDedupCleaningTask.delete. simpl.
    by destruct (StringDedup_is_enabled E). }
  split; intros Hen; rewrite Hen in *.
  - rewrite Hpass, app_nil_r, app_nil_l, fmap_app.
    apply Forall_app; split; [|repeat constructor; done].
    eapply Forall_impl; [done|]. intros e [_ He]. auto.
  - unfold StringDedupCleaningTask.delete, StringDedupCleaningTask.new.
    rewrite Hen. split_and!; try done.
    + rewrite Hpass. unfold prologues. rewrite !fmap_app, !omap_app.
      fold (prologues wtr.*2).
      replace (prologues wtr.*2) with (@nil bool); [done|]. symmetry.
      eapply omap_absent; [done|]. by intros [] [He _].
    + rewrite Hpass, !fmap_app, !total_app.
      rewrite (total_absent _ _ _ Hf'); [done|].
      intros e [He _]. unfold is_ev. case_decide; [by subst|done].
    + by rewrite Hpass.
    + rewrite Hpass.
      change [(VMThread, EvVerifyCleanInlineCaches);
              (VMThread, EvVerifyIcholderRelocations)]
        with ([(VMThread, EvVerifyCleanInlineCaches)]
              ++ [(VMThread, EvVerifyIcholderRelocations)]).
      by rewrite !app_assoc, last_snoc.
    + intros w l Hl Hret.
      assert (trace (pass E N uo rz sched)
              = trace (after E N uo rz sched)
                ++ [(VMThread, EvVerifyCleanInlineCaches);
                    (VMThread, EvVerifyIcholderRelocations);
                    (VMThread, EvGcEpilogue)]) as ->.
      { unfold pass, finish. cbn [trace].
        unfold ParallelCleaningTask.delete, CodeCacheUnloadingTask.delete,
          StringDedupCleaningTask.delete. by rewrite Hen. }
      rewrite events_of_app. unfold unlinks. rewrite omap_app.
      fold (unlinks (events_of (Worker w) (trace (after E N uo rz sched)))).
      change (pcs (pass E N uo rz sched)) with (pcs (after E N uo rz sched)) in Hl.
      by rewrite (unlinked_by_worker _ _ _ _ _ _ _ Hr Hl), Hen, Hret.
Qed.

Lemma string_dedup_bracket_witness :
  (StringDedupCleaningTask.new env_ex false).2 = [EvGcPrologue false]
  ∧ StringDedupCleaningTask.delete env_ex (StringDedupCleaningTask.new env_ex false).1
    = [EvGcEpilogue]
  ∧ prologues (trace (pass env_ex 4 true false (round_robin 4 60))).*2 = [false]
  ∧ total (is_ev EvGcEpilogue) (trace (pass env_ex 4 true false (round_robin 4 60))).*2 = 1
  ∧ head (trace (pass env_ex 4 true false (round_robin 4 60)))
    = Some (VMThread, EvGcPrologue false)
  ∧ last (trace (pass env_ex 4 true false (round_robin 4 60)))
    = Some (VMThread, EvGcEpilogue)
  ∧ (∀ w l, pcs (pass env_ex 4 true false (round_robin 4 60)) !! w = Some l →
     dedup_returned l = true →
     unlinks (events_of (Worker w) (trace (pass env_ex 4 true false (round_robin 4 60))))
     = [w]).
Proof.
  apply (string_dedup_bracket env_ex 4 true false (round_robin 4 60)).
  reflexivity.
Defined.

(** C9: [JVMCICleaningTask::work] does nothing unless there was
    unloading and JVMCI is enabled: under every schedule no worker calls
    the claim, [JVMCI::do_unloading] is not called and the flag stays
    clear.  Otherwise, when the workers have returned, each of them has
    called the claim, one has won, and [JVMCI::do_unloading] has been
    called once, by the winner. *)
Theorem jvmci_cleaning E N uo rz sched :
  (gate_used E uo JvmciGate = false →
     calls JvmciGate (trace (after E N uo rz sched)).*2 = 0
     ∧ jvmci_unloadings (trace (after E N uo rz sched)).*2 = []
     ∧ flag JvmciGate (task (after E N uo rz sched)) = 0%Z
     ∧ Forall (λ e, subtask_of e = Some JvmciTask → e = EvWork JvmciTask)
         (trace (after E N uo rz sched)).*2)
  ∧ (gate_used E uo JvmciGate = true → 1 ≤ N →
     all_returned (after E N uo rz sched) = true →
     calls JvmciGate (trace (after E N uo rz sched)).*2 = N
     ∧ wins JvmciGate (trace (after E N uo rz sched)).*2 = 1
     ∧ losses JvmciGate (trace (after E N uo rz sched)).*2 = N - 1
     ∧ jvmci_unloadings (trace (after E N uo rz sched)).*2 = [true]
     ∧ ∀ w, w < N →
         length (jvmci_unloadings
                   (events_of (Worker w) (trace (after E N uo rz sched))))
         = wins JvmciGate (events_of (Worker w) (trace (after E N uo rz sched)))).
Proof.
  pose proof (reachable_run E N uo rz sched) as Hr.
  fold (after E N uo rz sched) in Hr.
  pose proof (gate_called _ _ _ _ JvmciGate _ Hr) as Hcd.
  pose proof (gate_calls _ _ _ _ JvmciGate _ Hr) as Hcs.
  pose proof (jvmci_unloaded _ _ _ _ _ Hr) as Hun.
  destruct (gate_flag _ _ _ _ JvmciGate _ Hr) as (Hf & Hw & Hl0).
  destruct (jvmci_events _ _ _ _ _ Hr) as [Hargs Hidle].
  split.
  - intros Hg.
    assert (calls JvmciGate (trace (after E N uo rz sched)).*2 = 0) as Hc0.
    { rewrite Hcd. apply total_zero, Forall_forall. intros l _.
      unfold called. rewrite Hg. by destruct l. }
    split_and!; [done| | |auto].
    + apply length_zero_iff_nil. rewrite jvmci_unloadings_length. lia.
    + destruct Hf as [Hf|Hf]; [done|]. rewrite Hf in Hw. simpl in Hw. lia.
  - intros Hg HN Hall.
    rewrite (all_returned_total _ _ Hall) in Hcd.
    rewrite (all_returned_total _ _ Hall) in Hcs.
    rewrite (all_returned_total _ _ Hall) in Hun.
    rewrite (reachable_length _ _ _ _ _ Hr) in Hcd, Hcs, Hun.
    unfold called in Hcd. rewrite Hg in Hcd.
    change (at_cmpxchg JvmciGate L_done) with 0 in Hcs.
    change (at_pc L_jvmci_do_unloading L_done) with 0 in Hun.
    assert (wins JvmciGate (trace (after E N uo rz sched)).*2 = 1) as Hw1.
    { destruct (single_claim_cases E N uo rz _ JvmciGate Hr) as [[??]|?]; lia. }
    split_and!; [lia|done|lia| |].
    + assert (length (jvmci_unloadings (trace (after E N uo rz sched)).*2) = 1)
        as Hlen by (rewrite jvmci_unloadings_length; lia).
      destruct (jvmci_unloadings _) as [|b [|??]]; simplify_eq.
      apply Forall_singleton in Hargs as ->.
      destruct uo; [done|]. unfold gate_used in Hg.
      by destruct (INCLUDE_JVMCI E).
    + intros w Hw'.
      destruct (pcs (after E N uo rz sched) !! w) as [l|] eqn:Hl.
      2: { apply lookup_ge_None in Hl.
           rewrite (reachable_length _ _ _ _ _ Hr) in Hl. lia. }
      pose proof (all_returned_lookup _ _ _ Hall Hl) as ->.
      rewrite jvmci_unloadings_length.
      rewrite (jvmci_unloaded_by_winner _ _ _ _ _ _ _ Hr Hl).
      change (at_pc L_jvmci_do_unloading L_done) with 0. lia.
Qed.

Lemma jvmci_cleaning_witness :
  calls JvmciGate (trace (after env_ex 4 true false (round_robin 4 60))).*2 = 4
  ∧ wins JvmciGate (trace (after env_ex 4 true false (round_robin 4 60))).*2 = 1
  ∧ losses JvmciGate (trace (after env_ex 4 true false (round_robin 4 60))).*2 = 4 - 1
  ∧ jvmci_unloadings (trace (after env_ex 4 true false (round_robin 4 60))).*2 = [true]
  ∧ ∀ w, w < 4 →
      length (jvmci_unloadings
                (events_of (Worker w)
                   (trace (after env_ex 4 true false (round_robin 4 60)))))
      = wins JvmciGate
          (events_of (Worker w)
             (trace (after env_ex 4 true false (round_robin 4 60)))).
Proof.
  apply (jvmci_cleaning env_ex 4 true false (round_robin 4 60)).
  - reflexivity.
  - lia.
  - vm_compute. reflexivity.
Defined.

(** C10: [set_obj] stores the object and leaves the embedded lock and its
    displaced header as they were; [set_displaced_header] stores the
    header that [displaced_header] then returns. *)
Theorem basic_lock_accessors (b : BasicObjectLock.t) (o : oop)
    (l : BasicLock.t) (h : markOop) :
  BasicObjectLock.obj (BasicObjectLock.set_obj b o) = o
  ∧ BasicObjectLock.lock (BasicObjectLock.set_obj b o) = BasicObjectLock.lock b
  ∧ BasicLock.displaced_header (BasicObjectLock.lock (BasicObjectLock.set_obj b o))
    = BasicLock.displaced_header (BasicObjectLock.lock b)
  ∧ BasicLock.displaced_header (BasicLock.set_displaced_header l h) = h.
Proof. by destruct b, l. Qed.

(** * More of what a pass does *)

(** ** The gates at every moment *)

(** The winner of the klass tree gate is the worker that cleans the
    subklass tree. *)
Lemma tree_cleaned_by_winner E N uo rz s w l :
  reachable E N uo rz s → pcs s !! w = Some l →
  wins KlassTreeGate (events_of (Worker w) (trace s))
  = total (is_ev EvCleanSubklassTree) (events_of (Worker w) (trace s))
    + at_pc L_klass_tree l.
Proof.
  intros Hs. revert w l.
  apply (history E N uo rz
    (λ w l h, wins KlassTreeGate h
              = total (is_ev EvCleanSubklassTree) h + at_pc L_klass_tree l));
    [| |done].
  - intros w. unfold work_entry. by destruct (INCLUDE_JVMCI E).
  - intros s' w l p' l' evs _ _ IH Hex. unfold wins in *.
    rewrite !total_app, IH. clear IH.
    destruct l; exec_cases Hex; unfold is_ev, at_pc; simpl; lia.
Qed.


(** X2: at every moment of every schedule [Klass::clean_subklass_tree]
    and [JVMCI::do_unloading] have each been called at most once, and
    by no worker that has not won the gate before. *)
Theorem serial_work_at_most_once E N uo rz sched :
  total (is_ev EvCleanSubklassTree) (trace (after E N uo rz sched)).*2
    ≤ wins KlassTreeGate (trace (after E N uo rz sched)).*2
  ∧ wins KlassTreeGate (trace (after E N uo rz sched)).*2 ≤ 1
  ∧ length (jvmci_unloadings (trace (after E N uo rz sched)).*2)
    ≤ wins JvmciGate (trace (after E N uo rz sched)).*2
  ∧ wins JvmciGate (trace (after E N uo rz sched)).*2 ≤ 1
  ∧ (∀ w l, pcs (after E N uo rz sched) !! w = Some l →
       total (is_ev EvCleanSubklassTree)
         (events_of (Worker w) (trace (after E N uo rz sched)))
       ≤ wins KlassTreeGate (events_of (Worker w) (trace (after E N uo rz sched)))
       ∧ length (jvmci_unloadings
                   (events_of (Worker w) (trace (after E N uo rz sched))))
         ≤ wins JvmciGate (events_of (Worker w) (trace (after E N uo rz sched)))).
Proof.
  pose proof (reachable_run E N uo rz sched) as Hr.
  fold (after E N uo rz sched) in Hr.
  pose proof (tree_cleaned _ _ _ _ _ Hr) as Ht.
  pose proof (jvmci_unloaded _ _ _ _ _ Hr) as Hj.
  assert (∀ g, wins g (trace (after E N uo rz sched)).*2 ≤ 1) as Hw1.
  { intros g. destruct (single_claim_cases E N uo rz _ g Hr) as [[??]|?]; lia. }
  split_and!; [lia|done| |done|].
  - rewrite jvmci_unloadings_length. lia.
  - intros w l Hl.
    pose proof (tree_cleaned_by_winner _ _ _ _ _ _ _ Hr Hl).
    pose proof (jvmci_unloaded_by_winner _ _ _ _ _ _ _ Hr Hl).
    rewrite jvmci_unloadings_length. lia.
Qed.

(** ** The shared fields only move ahead *)

Lemma advanced_refl E s : advanced E s s.
Proof. constructor; try done. Qed.

Lemma advanced_trans E s1 s2 s3 :
  advanced E s1 s2 → advanced E s2 s3 → advanced E s1 s3.
Proof.
  intros [H1 H2 H3 H4 H5 H6 H7] [K1 K2 K3 K4 K5 K6 K7].
  constructor.
  - by etrans.
  - auto.
  - auto.
  - intros g. specialize (H4 g). specialize (K4 g). lia.
  - by etrans.
  - by etrans.
  - congruence.
Qed.

Lemma step_advanced E N uo rz s w :
  NoDup (code_cache E) → 1 ≤ MaxClaimNmethods E →
  reachable E N uo rz s → advanced E s (step E w s).
Proof.
  intros Hnd HK Hr. destruct (pcs s !! w) as [l|] eqn:Hl.
  2: { rewrite step_absent by done. apply advanced_refl. }
  pose proof (reachable_pc_ok _ _ _ _ _ _ _ Hr Hl) as Hok.
  destruct (reachable_cc E N uo rz _ Hnd HK Hr) as [Hcur _ _ _ _ _ _ _].
  destruct (exec E w l (task s)) as [[p' l'] evs] eqn:Hex.
  rewrite (step_unfold _ _ _ _ _ _ _ Hl Hex).
  destruct s as [[puo sd [cuo nw first cursor] jv [fl it]] ps tr].
  cbn [task pcs trace] in *.
  destruct l; exec_cases Hex;
    (constructor; cbn [task pcs trace]; simpl;
     [try done | try done | try done
     | intros []; simpl; repeat case_decide; simplify_eq; lia
     | try done; by apply suffix_cons_r
     | by apply prefix_app_r
     | by rewrite length_insert]).
  - (* an empty batch is returned *)
    destruct first0 as [x|]; [|by rewrite walk_None in Hok; simplify_eq].
    destruct (walk_spec E x [] last_method Hnd (Hcur _ eq_refl) Hok)
      as (Hpass & _). rewrite Hpass. by apply prefix_app_r.
  - intros ->. rewrite walk_None in Hok. by simplify_eq.
  - (* a batch is returned *)
    destruct first0 as [x|]; [|by rewrite walk_None in Hok].
    destruct (walk_spec E x _ last_method Hnd (Hcur _ eq_refl) Hok)
      as (Hpass & _). rewrite Hpass. by apply prefix_app_r.
  - intros ->. by rewrite walk_None in Hok.
Qed.

(** X3: whatever the workers do after a moment of a pass, the cursor is
    never rolled back (the methods it has passed stay passed, and NULL
    stays NULL), [_first_nmethod] stays NULL once cleared, a gate that
    was claimed stays claimed, the class iterator never hands out a
    class again, no call is taken back from the trace and no worker is
    added or lost. *)
Theorem shared_fields_only_advance E N uo rz sched sched' :
  NoDup (code_cache E) → 1 ≤ MaxClaimNmethods E →
  advanced E (after E N uo rz sched) (after E N uo rz (sched ++ sched')).
Proof.
  intros Hnd HK. unfold after. rewrite run_app.
  pose proof (reachable_run E N uo rz sched) as Hr.
  revert Hr. generalize (run E sched (init E N uo rz)). intros s Hr.
  induction sched' as [|w sched' IH] using rev_ind.
  - apply advanced_refl.
  - rewrite run_snoc. eapply advanced_trans; [done|].
    eapply step_advanced; eauto using reachable_run_from.
Qed.

Lemma shared_fields_only_advance_witness :
  advanced env_ex (after env_ex 4 true false (round_robin 4 5))
    (after env_ex 4 true false (round_robin 4 5 ++ round_robin 4 20)).
Proof.
  apply (shared_fields_only_advance env_ex 4 true false).
  - apply (bool_decide_unpack _). vm_compute. exact I.
  - vm_compute. lia.
Defined.

(** ** A worker unloads what it has claimed *)

Lemma unloaded_cc_calls h : unloaded (cc_calls h) = unloaded h.
Proof.
  induction h as [|e h IH]; [done|].
  destruct e; simpl; by rewrite ?IH.
Qed.

Lemma batches_cc_calls h : batches (cc_calls h) = batches h.
Proof.
  induction h as [|e h IH]; [done|].
  destruct e; simpl; by rewrite ?IH.
Qed.

Lemma unloaded_do_unloading uo (b : list CompiledMethod) :
  unloaded ((λ nm, EvDoUnloading nm uo) <$> b) = b.
Proof.
  induction b as [|nm b IH]; [done|].
  change (nm :: unloaded ((λ nm, EvDoUnloading nm uo) <$> b) = nm :: b).
  by rewrite IH.
Qed.

Lemma batches_do_unloading uo (b : list CompiledMethod) :
  batches ((λ nm, EvDoUnloading nm uo) <$> b) = [].
Proof. induction b as [|nm b IH]; [done|]. done. Qed.

Lemma unloaded_script uo bs : unloaded (script uo bs) = mjoin bs.
Proof.
  unfold script. induction bs as [|b bs IH]; [done|].
  rewrite bind_cons, unloaded_app, IH.
  change (mjoin (b :: bs)) with (b ++ mjoin bs). f_equal.
  apply (unloaded_do_unloading uo b).
Qed.

Lemma batches_script uo bs : batches (script uo bs) = bs.
Proof.
  unfold script. induction bs as [|b bs IH]; [done|].
  rewrite bind_cons, batches_app, IH.
  change (b :: bs) with ([b] ++ bs). f_equal.
  change (b :: batches ((λ nm, EvDoUnloading nm uo) <$> b) = [b]).
  by rewrite batches_do_unloading.
Qed.

Lemma batches_first_call E uo w : batches (first_call E uo w) = [].
Proof. unfold first_call. by destruct w, (head (code_cache E)). Qed.

Lemma elem_of_cc_calls nm b h :
  EvDoUnloading nm b ∈ h → EvDoUnloading nm b ∈ cc_calls h.
Proof. intros Hin. apply list_elem_of_omap. by exists (EvDoUnloading nm b). Qed.

(** What a worker has unloaded or holds is what it has claimed itself,
    and in the case of worker 0 the first method. *)
Lemma worker_unloaded E N uo rz s w l :
  reachable E N uo rz s → pcs s !! w = Some l →
  unloaded (events_of (Worker w) (trace s)) ++ pending l
  = (if cc_entered l then unloaded (first_call E uo w) else [])
    ++ mjoin (batches (events_of (Worker w) (trace s))).
Proof.
  intros Hr Hl.
  pose proof (worker_cc_shape _ _ _ _ _ _ _ Hr Hl) as Hs.
  unfold cc_shape in Hs.
  destruct (cc_entered l) eqn:Hent.
  - destruct Hs as (bs & Hbs & Hs).
    pose proof (f_equal unloaded Hs) as Hu.
    pose proof (f_equal batches Hs) as Hb.
    rewrite !unloaded_app, unloaded_cc_calls, unloaded_do_unloading,
      unloaded_script in Hu.
    rewrite !batches_app, batches_cc_calls, batches_do_unloading,
      batches_script, batches_first_call, app_nil_r in Hb.
    rewrite Hb, Hu. simpl. rewrite join_app.
    by destruct (cc_returned l); simpl; rewrite !app_nil_r.
  - rewrite <-unloaded_cc_calls, <-batches_cc_calls, Hs. by destruct l.
Qed.

(** X5: at every moment of a pass the methods that a worker has
    unloaded, followed by those it still holds, are the methods of the
    batches that its own calls of [claim_nmethods] have returned, in the
    order of the claims, after the first method of the code cache in
    the case of worker 0: no worker unloads a method that another one
    has claimed.  Every call of [do_unloading] passes the
    [unloading_occurred] that the task was constructed with. *)
Theorem worker_unloads_own_claims E N uo rz sched w l :
  pcs (after E N uo rz sched) !! w = Some l →
  unloaded (events_of (Worker w) (trace (after E N uo rz sched))) ++ pending l
  = (if cc_entered l then unloaded (first_call E uo w) else [])
    ++ mjoin (batches (events_of (Worker w) (trace (after E N uo rz sched))))
  ∧ ∀ nm b,
      EvDoUnloading nm b ∈ events_of (Worker w) (trace (after E N uo rz sched)) →
      b = uo.
Proof.
  intros Hl.
  pose proof (reachable_run E N uo rz sched) as Hr.
  fold (after E N uo rz sched) in Hr.
  split; [by apply (worker_unloaded E N uo rz)|].
  pose proof (worker_cc_shape _ _ _ _ _ _ _ Hr Hl) as Hs.
  unfold cc_shape in Hs.
  destruct (cc_entered l) eqn:Hent.
  - destruct Hs as (bs & Hbs & Hs).
    intros nm b Hin%elem_of_cc_calls.
    assert (EvDoUnloading nm b
              ∈ first_call E uo w ++ script uo bs
                ++ (if cc_returned l then [EvClaimNmethods []] else []))
      as Hin' by (rewrite <-Hs; apply elem_of_app; by left).
    apply elem_of_app in Hin' as [Hin'|Hin'].
    + unfold first_call in Hin'.
      destruct w, (head (code_cache E));
        try (by apply elem_of_nil in Hin').
      apply list_elem_of_singleton in Hin'. by simplify_eq.
    + apply elem_of_app in Hin' as [Hin'|Hin'].
      * unfold script in Hin'.
        apply list_elem_of_bind in Hin' as (b0 & Hin' & _).
        apply elem_of_cons in Hin' as [?|Hin']; [done|].
        apply list_elem_of_fmap in Hin' as (? & ? & _). by simplify_eq.
      * destruct (cc_returned l); [|by apply elem_of_nil in Hin'].
        by apply list_elem_of_singleton in Hin'.
  - intros nm b Hin%elem_of_cc_calls. rewrite Hs in Hin.
    by apply elem_of_nil in Hin.
Qed.

Lemma worker_unloads_own_claims_witness :
  unloaded (events_of (Worker 1)
              (trace (after env_ex 4 true false (round_robin 4 8))))
    ++ pending (L_cc_unload [3; 4])
  = (if cc_entered (L_cc_unload [3; 4])
     then unloaded (first_call env_ex true 1) else [])
    ++ mjoin (batches (events_of (Worker 1)
                         (trace (after env_ex 4 true false (round_robin 4 8)))))
  ∧ ∀ nm b,
      EvDoUnloading nm b
        ∈ events_of (Worker 1)
            (trace (after env_ex 4 true false (round_robin 4 8))) →
      b = true.
Proof.
  apply (worker_unloads_own_claims env_ex 4 true false (round_robin 4 8) 1).
  vm_compute. reflexivity.
Defined.

(** ** Full batches, and how many claims there are *)

(** A walk that claims fewer methods than the bound has run to the end
    of the code cache. *)
Lemma walk_short E x b lm :
  NoDup (code_cache E) → x ∈ code_cache E →
  CodeCacheUnloadingTask.walk E (Some x) = (b, lm) →
  length b < MaxClaimNmethods E → lm = None.
Proof.
  intros Hnd Hx Hw Hlen. unfold CodeCacheUnloadingTask.walk in Hw.
  apply list_elem_of_split in Hx as (pre & post & Hc).
  rewrite Hc in *.
  destruct (claim_loop_spec (MaxClaimNmethods E) pre x post [] Hnd)
    as (it & Hit & Hm).
  rewrite Hit in Hw. simpl in Hw. simplify_eq.
  rewrite Hm. rewrite length_take in Hlen.
  destruct (MaxClaimNmethods E) as [|m]; [lia|].
  apply lookup_ge_None. lia.
Qed.

(** The batches returned so far are full ones, followed, once the
    cursor is NULL, by one that is not full and by empty ones. *)
Lemma reachable_batches E N uo rz s :
  NoDup (code_cache E) → 1 ≤ MaxClaimNmethods E →
  reachable E N uo rz s →
  ∃ full rest,
    batches (trace s).*2 = full ++ rest
    ∧ Forall (λ b, length b = MaxClaimNmethods E) full
    ∧ (rest = []
       ∨ CodeCacheUnloadingTask._claimed_nmethod
           (ParallelCleaningTask._code_cache_task (task s)) = None
         ∧ ∃ b m, rest = b :: replicate m [] ∧ length b < MaxClaimNmethods E).
Proof.
  intros Hnd HK.
  induction 1 as [|s w l p' l' evs Hr IH Hl Hex] using reachable_ind.
  { exists [], []. rewrite init_trace.
    split_and!; [by destruct (StringDedup_is_enabled E)|done|by left]. }
  pose proof (reachable_pc_ok _ _ _ _ _ _ _ Hr Hl) as Hok.
  destruct (reachable_cc E N uo rz _ Hnd HK Hr) as [Hcur _ _ _ _ _ _ _].
  destruct IH as (full & rest & Hb & Hfull & Hrest).
  cbn [task pcs trace]. rewrite fmap_app, snd_tagged, batches_app, Hb.
  destruct (exec_cc _ _ _ _ _ _ _ Hex)
    as [(nm & -> & -> & -> & Hf & Hcc & Hun & Hba & _)
       |[(b & lm & -> & Hcc & -> & Hun & Hba & _)
       |[(nm & rest' & -> & -> & Hcc & Hun & Hba & _)
        |(Hcc & Hun & Hba & _)]]];
    rewrite Hba, ?app_nil_r, Hcc.
  - exists full, rest. by split_and!.
  - (* a compare-and-exchange succeeds *)
    cbn [CodeCacheUnloadingTask._claimed_nmethod
         CodeCacheUnloadingTask.set_claimed_nmethod].
    destruct Hrest as [->|(Hnone & b0 & m & -> & Hb0)].
    + rewrite app_nil_r.
      destruct (CodeCacheUnloadingTask._claimed_nmethod
                  (ParallelCleaningTask._code_cache_task (task s)))
        as [x|] eqn:Hx.
      * destruct (walk_spec E x b lm Hnd (Hcur _ eq_refl) Hok)
          as (_ & Hlen & _).
        destruct (decide (length b = MaxClaimNmethods E)) as [Heq|Hne].
        -- exists (full ++ [b]), []. rewrite app_nil_r.
           split_and!; [done| |by left].
           apply Forall_app. split; [done|]. by apply Forall_singleton.
        -- exists full, [b]. split_and!; [done..|]. right. split.
           ++ eapply walk_short; eauto. lia.
           ++ exists b, 0. split; [done|lia].
      * cbn [pc_ok] in Hok. rewrite walk_None in Hok. simplify_eq.
        exists full, [[]]. split_and!; [done..|]. right. split; [done|].
        exists [], 0. split; [done|]. simpl. lia.
    + rewrite Hnone in Hok. cbn [pc_ok] in Hok.
      rewrite walk_None in Hok. simplify_eq.
      exists full, (b0 :: replicate (S m) []). split_and!; [|done|].
      * by rewrite replicate_S_end, <-app_assoc.
      * right. split; [done|]. by exists b0, (S m).
  - exists full, rest. by split_and!.
  - exists full, rest. by split_and!.
Qed.

(** [claim_nmethods] has returned the empty batch once to each worker
    that has left [CodeCacheUnloadingTask::work]. *)
Lemma empty_batches E N uo rz s :
  reachable E N uo rz s →
  total (is_ev (EvClaimNmethods [])) (trace s).*2 = total cc_left (pcs s).
Proof.
  intros Hs.
  opose proof (ledger E N uo rz (is_ev (EvClaimNmethods [])) (λ _, 0)
    (λ _, 0) cc_left _ _ s Hs) as L.
  - rewrite init_trace. unfold work_entry.
    destruct (StringDedup_is_enabled E), (INCLUDE_JVMCI E); done.
  - intros w l p p' l' evs _ _ Hex.
    destruct l; exec_cases Hex; unfold is_ev, cc_left; simpl;
      repeat case_decide; simplify_eq; try done; lia.
  - assert (∀ A (l : list A), total (λ _, 0) l = 0) as Hz.
    { intros A l. apply total_zero, Forall_forall; done. }
    rewrite !Hz in L. lia.
Qed.

Lemma occurrences_empty_batch h :
  occurrences [] (batches h) = total (is_ev (EvClaimNmethods [])) h.
Proof.
  unfold occurrences. induction h as [|e h IH]; [done|].
  rewrite total_cons, <-IH. unfold is_ev.
  destruct e as [| | | | | | | | | |b| | |]; try (by case_decide).
  change (batches (EvClaimNmethods b :: h)) with (b :: batches h).
  destruct b.
  - rewrite filter_cons_True, decide_True by done. done.
  - rewrite filter_cons_False, decide_False by done. done.
Qed.

Lemma occurrences_app {A} `{EqDecision A} (x : A) l k :
  occurrences x (l ++ k) = occurrences x l + occurrences x k.
Proof. unfold occurrences. by rewrite filter_app, length_app. Qed.

Lemma occurrences_replicate {A} `{EqDecision A} (x : A) n :
  occurrences x (replicate n x) = n.
Proof.
  unfold occurrences. induction n as [|n IH]; [done|].
  change (replicate (S n) x) with (x :: replicate n x).
  rewrite filter_cons_True by done. simpl. by rewrite IH.
Qed.

Lemma full_batches {A} `{EqDecision A} K (full : list (list A)) :
  Forall (λ b, length b = K) full → 1 ≤ K →
  length (mjoin full) = K * length full
  ∧ filter (λ b, b ≠ []) full = full
  ∧ occurrences [] full = 0.
Proof.
  intros Hf HK. induction Hf as [|b full Hb _ (IH1 & IH2 & IH3)]; [split; [simpl; lia|done]|].
  assert (b ≠ []) by (intros ->; simpl in *; lia).
  split_and!.
  - simpl. rewrite length_app, IH1. lia.
  - rewrite filter_cons_True by done. by rewrite IH2.
  - unfold occurrences in *. by rewrite filter_cons_False by done.
Qed.

Lemma empty_batches_claimed {A} m :
  mjoin (replicate m (@nil A)) = []
  ∧ filter (λ b : list A, b ≠ []) (replicate m []) = [].
Proof.
  induction m as [|m [IH1 IH2]]; [done|].
  change (replicate (S m) (@nil A)) with (@nil A :: replicate m []).
  split; [done|]. by rewrite filter_cons_False by (by intros ?).
Qed.



(** A worker has been returned the empty batch once if it has left
    [CodeCacheUnloadingTask::work], and not before. *)
Lemma worker_empty_batch E N uo rz s w l :
  reachable E N uo rz s → pcs s !! w = Some l →
  occurrences [] (batches (events_of (Worker w) (trace s))) = cc_left l.
Proof.
  intros Hs. revert w l.
  apply (history E N uo rz
    (λ w l h, occurrences [] (batches h) = cc_left l)); [| |done].
  - intros w. unfold work_entry. by destruct (INCLUDE_JVMCI E).
  - intros s' w l p' l' evs _ _ IH Hex.
    rewrite batches_app, occurrences_app, IH. clear IH.
    destruct l; exec_cases Hex; done.
Qed.

(** What the batches number when the workers have left. *)
Lemma batches_counted E N uo rz s :
  1 ≤ MaxClaimNmethods E → NoDup (code_cache E) →
  reachable E N uo rz s → 1 ≤ N → all_cc_returned s = true →
  length (claimed_batches (trace s).*2)
  = (length (tail (code_cache E)) + MaxClaimNmethods E - 1)
    / MaxClaimNmethods E
  ∧ length (batches (trace s).*2)
    = (length (tail (code_cache E)) + MaxClaimNmethods E - 1)
      / MaxClaimNmethods E + N.
Proof.
  intros HK Hnd Hr HN Hall.
  pose proof (empty_batches _ _ _ _ _ Hr) as Hemp.
  rewrite <-occurrences_empty_batch in Hemp.
  destruct (reachable_batches E N uo rz _ Hnd HK Hr)
    as (full & rest & Hb & Hfull & Hrest).
  destruct (reachable_cc E N uo rz _ Hnd HK Hr) as [_ _ _ Hbat _ _ _ _].
  destruct (full_batches _ _ Hfull HK) as (Hf1 & Hf2 & Hf3).
  apply all_cc_returned_Forall in Hall.
  assert (total cc_left (pcs s) = N) as Hleft.
  { rewrite (total_const cc_left _ 1).
    - rewrite (reachable_length _ _ _ _ _ Hr). lia.
    - eapply Forall_impl; [done|]. intros l Hl. unfold cc_left. by rewrite Hl. }
  rewrite Hleft in Hemp. unfold claimed_batches.
  rewrite Hb in *. rewrite occurrences_app, Hf3 in Hemp.
  destruct Hrest as [->|(Hnone & b0 & m & -> & Hb0)].
  { unfold occurrences in Hemp. simpl in Hemp. lia. }
  destruct (empty_batches_claimed (A:=CompiledMethod) m) as [He1 He2].
  rewrite Hnone in Hbat. cbn [passed] in Hbat.
  apply (f_equal length) in Hbat.
  rewrite join_app, length_app, Hf1 in Hbat.
  change (mjoin (b0 :: replicate m [])) with (b0 ++ mjoin (replicate m []))
    in Hbat.
  rewrite He1, app_nil_r in Hbat.
  change (b0 :: replicate m []) with ([b0] ++ replicate m []) in Hemp.
  rewrite occurrences_app, occurrences_replicate in Hemp.
  rewrite filter_app, Hf2, !length_app. simpl.
  rewrite length_replicate.
  destruct b0 as [|nm b0].
  - rewrite filter_cons_False by (by intros ?). rewrite He2.
    unfold occurrences in Hemp. rewrite filter_cons_True in Hemp by done.
    simpl in *.
    assert (length full
            = (length (tail (code_cache E)) + MaxClaimNmethods E - 1)
              / MaxClaimNmethods E) as <-.
    { apply (Nat.div_unique _ _ _ (MaxClaimNmethods E - 1)); lia. }
    lia.
  - rewrite filter_cons_True by done. rewrite He2.
    unfold occurrences in Hemp. rewrite filter_cons_False in Hemp by done.
    simpl in *.
    assert (length full + 1
            = (length (tail (code_cache E)) + MaxClaimNmethods E - 1)
              / MaxClaimNmethods E) as <-.
    { apply (Nat.div_unique _ _ _ (length b0)); lia. }
    lia.
Qed.

(** X7: at every moment [claim_nmethods] has returned the empty batch
    exactly once to each worker that has left
    [CodeCacheUnloadingTask::work], and to no other worker.  Whatever
    the [N] workers have done so far, they all leave when each is given
    its turn; and when they all have left, by whatever schedule, the
    batches that hold a method number the alive methods after the first
    one divided by [MaxClaimNmethods], rounded up, and there are [N]
    more returns, the empty ones. *)
Theorem claim_count E N uo rz sched :
  1 ≤ MaxClaimNmethods E → NoDup (code_cache E) →
  (∀ w l, pcs (after E N uo rz sched) !! w = Some l →
     occurrences []
       (batches (events_of (Worker w) (trace (after E N uo rz sched))))
     = if cc_returned l then 1 else 0)
  ∧ occurrences [] (batches (trace (after E N uo rz sched)).*2)
    = total cc_left (pcs (after E N uo rz sched))
  ∧ (1 ≤ N → all_cc_returned (after E N uo rz sched) = true →
     length (claimed_batches (trace (after E N uo rz sched)).*2)
     = (length (tail (code_cache E)) + MaxClaimNmethods E - 1)
       / MaxClaimNmethods E
     ∧ length (batches (trace (after E N uo rz sched)).*2)
       = (length (tail (code_cache E)) + MaxClaimNmethods E - 1)
         / MaxClaimNmethods E + N)
  ∧ (1 ≤ N →
     all_cc_returned
       (after E N uo rz
          (sched ++ round_robin N (measure E (after E N uo rz sched)))) = true
     ∧ length (claimed_batches
                 (trace (after E N uo rz
                           (sched ++ round_robin N
                                       (measure E (after E N uo rz sched))))).*2)
       = (length (tail (code_cache E)) + MaxClaimNmethods E - 1)
         / MaxClaimNmethods E
     ∧ length (batches
                 (trace (after E N uo rz
                           (sched ++ round_robin N
                                       (measure E (after E N uo rz sched))))).*2)
       = (length (tail (code_cache E)) + MaxClaimNmethods E - 1)
         / MaxClaimNmethods E + N).
Proof.
  intros HK Hnd.
  pose proof (reachable_run E N uo rz sched) as Hr.
  fold (after E N uo rz sched) in Hr.
  split_and!.
  - intros w l Hl. by apply (worker_empty_batch E N uo rz).
  - rewrite occurrences_empty_batch. by apply (empty_batches E N uo rz).
  - intros HN Hall. by apply (batches_counted E N uo rz).
  - intros HN.
    pose proof (all_returned_cc _ (pass_completes E N uo rz sched Hnd HK))
      as Hall.
    split; [done|].
    apply (batches_counted E N uo rz); [done..|apply (reachable_run E N uo rz)|done|done].
Qed.

(** Four workers and nine methods after the first one, claimed in
    batches of at most four: a worker that still unloads has been
    returned no empty batch, and from there the pass comes to its end
    with three batches that hold a method and seven returns in all; at
    the end every worker has been returned the empty batch once. *)
Lemma claim_count_witness :
  (occurrences []
     (batches (events_of (Worker 1)
                 (trace (after env_ex 4 true false (round_robin 4 8))))) = 0
   ∧ all_cc_returned
       (after env_ex 4 true false
          (round_robin 4 8
           ++ round_robin 4
                (measure env_ex
                   (after env_ex 4 true false (round_robin 4 8))))) = true
   ∧ length (claimed_batches
               (trace (after env_ex 4 true false
                         (round_robin 4 8
                          ++ round_robin 4
                               (measure env_ex
                                  (after env_ex 4 true false
                                     (round_robin 4 8)))))).*2) = 3
   ∧ length (batches
               (trace (after env_ex 4 true false
                         (round_robin 4 8
                          ++ round_robin 4
                               (measure env_ex
                                  (after env_ex 4 true false
                                     (round_robin 4 8)))))).*2) = 7)
  ∧ (occurrences []
       (batches (events_of (Worker 2)
                   (trace (after env_ex 4 true false (round_robin 4 60))))) = 1
     ∧ occurrences []
         (batches (trace (after env_ex 4 true false (round_robin 4 60))).*2) = 4
     ∧ length (claimed_batches
                 (trace (after env_ex 4 true false (round_robin 4 60))).*2) = 3
     ∧ length (batches
                 (trace (after env_ex 4 true false (round_robin 4 60))).*2) = 7).
Proof.
  assert (NoDup (seq 0 10)) as Hnd
    by (apply (bool_decide_unpack _); vm_compute; exact I).
  split.
  - destruct (claim_count env_ex 4 true false (round_robin 4 8))
      as (Hw & _ & _ & Hprog); [vm_compute; lia|exact Hnd|].
    split.
    + apply (Hw 1 (L_cc_unload [3; 4])). vm_compute. reflexivity.
    + apply Hprog. lia.
  - destruct (claim_count env_ex 4 true false (round_robin 4 60))
      as (Hw & Hg & Hall & _); [vm_compute; lia|exact Hnd|].
    split; [|split].
    + apply (Hw 2 L_done). vm_compute. reflexivity.
    + exact Hg.
    + apply Hall; [lia|vm_compute; reflexivity].
Defined.

(** ** What a worker does in the klass cleaning task *)

Lemma klass_calls_app h1 h2 :
  klass_calls (h1 ++ h2) = klass_calls h1 ++ klass_calls h2.
Proof. apply filter_app. Qed.

Lemma klass_calls_in evs :
  Forall (λ e, subtask_of e = Some KlassTask) evs → klass_calls evs = evs.
Proof.
  unfold klass_calls. induction 1 as [|e evs He _ IH]; [done|].
  by rewrite filter_cons_True, IH.
Qed.

Lemma klass_rounds_snoc ks k :
  klass_rounds (ks ++ [k])
  = klass_rounds ks ++ [EvNextKlass (Some k); EvCleanKlass k].
Proof. unfold klass_rounds. by rewrite bind_app, bind_cons, app_nil_r. Qed.

(** X8: what a worker has called in [KlassCleaningTask::work] is laid
    out by where it stands, under every schedule: it enters, calls the
    claim of the subklass tree, and cleans the tree if the claim
    returned true; then in rounds [claim_next_klass] returns a class
    and the worker itself cleans it, before it claims another; and the
    worker returns when [claim_next_klass] has returned NULL.  Without
    [unloading_occurred] it calls nothing of the klass cleaning task. *)
Theorem klass_work_shape E N uo rz sched w l :
  pcs (after E N uo rz sched) !! w = Some l →
  klass_shape uo l (events_of (Worker w) (trace (after E N uo rz sched))).
Proof.
  pose proof (reachable_run E N uo rz sched) as Hr.
  fold (after E N uo rz sched) in Hr. revert Hr.
  generalize (after E N uo rz sched). intros s Hs. revert w l.
  apply (history E N uo rz (λ w l h, klass_shape uo l h)); [| |done].
  - intros w. unfold work_entry. by destruct (INCLUDE_JVMCI E).
  - intros s' w l p' l' evs Hr Hl IH Hex.
    pose proof (reachable_pc_ok _ _ _ _ _ _ _ Hr Hl) as Hok.
    destruct (reachable_task_ok _ _ _ _ _ Hr) as [Ht1 Ht2].
    unfold klass_shape in *. rewrite klass_calls_app.
    destruct l; exec_cases Hex;
      repeat match goal with
      | H : ParallelCleaningTask._unloading_occurred _ = _ |- _ =>
          rewrite H in *
      end;
      rewrite ?app_nil_r; try done;
      repeat match goal with H : ∃ _, _ |- _ => destruct H as [? H] end;
      rewrite IH, klass_calls_in by (by repeat constructor);
      try done.
    + by exists false, [].
    + by exists false, [].
    + by exists false, [].
    + by exists true, [].
    + eexists _, _. simpl. by rewrite <-!app_assoc.
    + eexists _, _. simpl. by rewrite <-!app_assoc.
    + eexists _, (_ ++ [_]). rewrite klass_rounds_snoc. simpl.
      by rewrite <-!app_assoc.
Qed.

Lemma klass_work_shape_witness :
  klass_shape true L_done
    (events_of (Worker 0) (trace (after env_ex 4 true false (round_robin 4 60)))).
Proof.
  apply (klass_work_shape env_ex 4 true false (round_robin 4 60) 0 L_done).
  vm_compute. reflexivity.
Defined.

(** ** How many steps a pass can take *)

Lemma remaining_head cache : remaining cache (head cache) = length cache.
Proof.
  destruct cache as [|x cache]; [done|].
  unfold remaining. simpl. rewrite decide_True by done. simpl. lia.
Qed.

Lemma measure_init E N uo rz :
  measure E (init E N uo rz)
  = (2 * N + 4) * length (code_cache E) + 2 * length (class_graph E)
    + N * (if INCLUDE_JVMCI E then 13 else 9).
Proof.
  unfold measure. rewrite init_code_cache_task.
  destruct (new_fields E N uo) as [_ ->].
  rewrite remaining_head.
  change (pcs (init E N uo rz)) with (replicate N (work_entry E)).
  rewrite total_replicate, length_replicate.
  unfold work_entry. by destruct (INCLUDE_JVMCI E).
Qed.

Lemma effective_le E N uo rz sched : ∀ s,
  NoDup (code_cache E) → 1 ≤ MaxClaimNmethods E →
  reachable E N uo rz s →
  effective E sched s + measure E (run E sched s) ≤ measure E s.
Proof.
  induction sched as [|w sched IH]; intros s Hnd HK Hr; [simpl; lia|].
  change (run E (w :: sched) s) with (run E sched (step E w s)).
  cbn [effective].
  specialize (IH (step E w s) Hnd HK (reachable_step _ _ _ _ _ w Hr)).
  destruct (pcs s !! w) as [l|] eqn:Hl.
  - destruct (decide (l = L_done)) as [->|Hne].
    + rewrite step_returned in * by done. simpl. lia.
    + pose proof (measure_step E N uo rz s w l Hnd HK Hr Hl Hne).
      destruct (returned l); lia.
  - rewrite step_absent in * by done. lia.
Qed.

(** X9: no schedule keeps the workers busy for ever: the steps that
    workers which have not returned make in a pass of [N] workers over
    [M] alive methods and [C] classes number at most
    [(2N + 4) M + 2C + 13N], however the workers are interleaved and
    however often a compare-and-exchange fails. *)
Theorem steps_bounded E N uo rz sched :
  NoDup (code_cache E) → 1 ≤ MaxClaimNmethods E →
  effective E sched (init E N uo rz) + measure E (after E N uo rz sched)
  ≤ (2 * N + 4) * length (code_cache E) + 2 * length (class_graph E)
    + N * (if INCLUDE_JVMCI E then 13 else 9)
  ∧ effective E sched (init E N uo rz)
    ≤ (2 * N + 4) * length (code_cache E) + 2 * length (class_graph E)
      + 13 * N.
Proof.
  intros Hnd HK.
  pose proof (effective_le E N uo rz sched (init E N uo rz) Hnd HK
                (reachable_run E N uo rz [])) as Hle.
  rewrite measure_init in Hle. fold (after E N uo rz sched) in Hle.
  split; [done|]. destruct (INCLUDE_JVMCI E); lia.
Qed.

Lemma steps_bounded_witness :
  effective env_ex (round_robin 4 60) (init env_ex 4 true false)
    + measure env_ex (after env_ex 4 true false (round_robin 4 60))
  ≤ (2 * 4 + 4) * length (code_cache env_ex) + 2 * length (class_graph env_ex)
    + 4 * (if INCLUDE_JVMCI env_ex then 13 else 9)
  ∧ effective env_ex (round_robin 4 60) (init env_ex 4 true false)
    ≤ (2 * 4 + 4) * length (code_cache env_ex) + 2 * length (class_graph env_ex)
      + 13 * 4.
Proof.
  apply (steps_bounded env_ex 4 true false (round_robin 4 60)).
  - apply (bool_decide_unpack _). vm_compute. exact I.
  - vm_compute. lia.
Defined.

(** ** The order in which a worker works *)

Lemma events_of_sublist t tr : events_of t tr `sublist_of` tr.*2.
Proof.
  unfold events_of. induction tr as [|[t' e] tr IH]; [done|].
  simpl. case_decide; by constructor.
Qed.

Lemma omap_sublist {A B} (f : A → option B) l k :
  l `sublist_of` k → omap f l `sublist_of` omap f k.
Proof.
  induction 1 as [|x l k _ IH|x l k _ IH]; [done| |]; simpl;
    destruct (f x); try done; by constructor.
Qed.

Lemma join_sublist {A} (ls ks : list (list A)) :
  ls `sublist_of` ks → mjoin ls `sublist_of` mjoin ks.
Proof.
  induction 1 as [|b ls ks _ IH|b ls ks _ IH]; [done| |]; simpl.
  - by apply sublist_app.
  - by apply sublist_inserts_l.
Qed.

Lemma prefix_sublist {A} (l k : list A) : l `prefix_of` k → l `sublist_of` k.
Proof. intros [k' ->]. by apply sublist_inserts_r. Qed.

(** A worker cleans the classes that it has claimed, one at a time. *)
Lemma worker_cleaned E N uo rz s w l :
  reachable E N uo rz s → pcs s !! w = Some l →
  cleaned (events_of (Worker w) (trace s)) ++ cleaning l
  = claimed_klasses (events_of (Worker w) (trace s)).
Proof.
  intros Hs. revert w l.
  apply (history E N uo rz
    (λ w l h, cleaned h ++ cleaning l = claimed_klasses h)); [| |done].
  - intros w. unfold work_entry. by destruct (INCLUDE_JVMCI E).
  - intros s' w l p' l' evs _ _ IH Hex.
    unfold cleaned, claimed_klasses in *. rewrite !omap_app, <-IH.
    destruct l; exec_cases Hex; by rewrite ?app_nil_r.
Qed.

(** X10: every worker keeps the order of the code cache and of the
    class graph, whatever the schedule: the methods that it has
    unloaded or still holds are, in this order, some of the alive
    methods in the order of the code cache, and the classes that it has
    cleaned, or is about to clean, are the classes that
    [claim_next_klass] has returned to it, which are some of the
    instance classes in the order of the class graph. *)
Theorem worker_keeps_the_order E N uo rz sched w l :
  1 ≤ MaxClaimNmethods E → NoDup (code_cache E) →
  pcs (after E N uo rz sched) !! w = Some l →
  unloaded (events_of (Worker w) (trace (after E N uo rz sched))) ++ pending l
    `sublist_of` code_cache E
  ∧ cleaned (events_of (Worker w) (trace (after E N uo rz sched))) ++ cleaning l
    = claimed_klasses (events_of (Worker w) (trace (after E N uo rz sched)))
  ∧ claimed_klasses (events_of (Worker w) (trace (after E N uo rz sched)))
    `sublist_of` instances (class_graph E).
Proof.
  intros HK Hnd Hl.
  pose proof (reachable_run E N uo rz sched) as Hr.
  fold (after E N uo rz sched) in Hr.
  destruct (reachable_cc E N uo rz _ Hnd HK Hr) as [_ _ _ Hbat _ _ _ _].
  destruct (reachable_klass E N uo rz _ Hr) as [Hcl _ _ _].
  split_and!.
  - rewrite (worker_unloaded _ _ _ _ _ _ _ Hr Hl).
    rewrite <-(head_tail (code_cache E)).
    apply sublist_app.
    + unfold first_call.
      destruct (cc_entered l), w, (head (code_cache E)); simpl;
        try done; by constructor.
    + etrans; [apply join_sublist, omap_sublist, events_of_sublist|].
      fold (batches (trace (after E N uo rz sched)).*2). rewrite Hbat.
      apply prefix_sublist, tail_prefix, passed_prefix.
  - by apply (worker_cleaned E N uo rz).
  - etrans; [apply omap_sublist, events_of_sublist|].
    fold (claimed_klasses (trace (after E N uo rz sched)).*2).
    rewrite <-Hcl. by apply sublist_inserts_r.
Qed.

Lemma worker_keeps_the_order_witness :
  unloaded (events_of (Worker 1)
              (trace (after env_ex 4 true false (round_robin 4 8))))
    ++ pending (L_cc_unload [3; 4])
    `sublist_of` code_cache env_ex
  ∧ cleaned (events_of (Worker 1)
               (trace (after env_ex 4 true false (round_robin 4 8))))
      ++ cleaning (L_cc_unload [3; 4])
    = claimed_klasses (events_of (Worker 1)
                         (trace (after env_ex 4 true false (round_robin 4 8))))
  ∧ claimed_klasses (events_of (Worker 1)
                       (trace (after env_ex 4 true false (round_robin 4 8))))
    `sublist_of` instances (class_graph env_ex).
Proof.
  apply (worker_keeps_the_order env_ex 4 true false (round_robin 4 8) 1).
  - vm_compute. lia.
  - apply (bool_decide_unpack _). vm_compute. exact I.
  - vm_compute. reflexivity.
Defined.

(** ** A pass of a single worker *)

(** In a pass of one worker every call but [gc_prologue] is made by
    worker 0. *)
Lemma single_worker_trace E uo rz s :
  reachable E 1 uo rz s →
  Forall (λ te, te.1 = Worker 0 ∨ ∃ b, te.2 = EvGcPrologue b) (trace s).
Proof.
  induction 1 as [|s w l p' l' evs Hr IH Hl Hex] using reachable_ind.
  - unfold init. simpl.
    destruct (StringDedup_is_enabled E); [|done].
    apply Forall_singleton. right. simpl. eauto.
  - cbn [trace]. apply Forall_app. split; [done|]. apply Forall_fmap.
    apply Forall_forall. intros e _. left. simpl.
    apply lookup_lt_Some in Hl.
    rewrite (reachable_length _ _ _ _ _ Hr) in Hl.
    by replace w with 0 by lia.
Qed.

Lemma omap_single_worker {A} (f : event → option A) tr :
  Forall (λ te, te.1 = Worker 0 ∨ ∃ b, te.2 = EvGcPrologue b) tr →
  (∀ b, f (EvGcPrologue b) = None) →
  omap f (events_of (Worker 0) tr) = omap f tr.*2.
Proof.
  intros Htr Hf. unfold events_of.
  induction Htr as [|[t e] tr Hte _ IH]; [done|].
  simpl in Hte. cbn [omap fmap list_fmap list_omap fst snd].
  case_decide as Ht.
  - cbn [omap list_omap]. by rewrite IH.
  - destruct Hte as [?|[b ->]]; [done|]. by rewrite Hf.
Qed.

(** X11: a pass of a single worker is sequential: when the worker has
    returned, [do_unloading] has been called on the alive methods in
    the order of the code cache, each once, and, if unloading
    occurred, [clean_klass] on the instance classes in the order of the
    class graph, each once. *)
Theorem single_worker_in_order E uo rz sched :
  1 ≤ MaxClaimNmethods E → NoDup (code_cache E) →
  all_returned (after E 1 uo rz sched) = true →
  unloaded (trace (after E 1 uo rz sched)).*2 = code_cache E
  ∧ (uo = true →
     cleaned (trace (after E 1 uo rz sched)).*2 = instances (class_graph E)).
Proof.
  intros HK Hnd Hall.
  pose proof (reachable_run E 1 uo rz sched) as Hr.
  fold (after E 1 uo rz sched) in Hr.
  destruct (first_worker _ _ _ _ _ Hr (le_n 1)) as [l Hl].
  pose proof (all_returned_lookup _ _ _ Hall Hl) as ->.
  pose proof (single_worker_trace _ _ _ _ Hr) as Htr.
  pose proof (list_elem_of_lookup_2 _ _ _ Hl) as Hin.
  destruct (reachable_cc E 1 uo rz _ Hnd HK Hr) as [_ _ _ Hbat _ _ Hep _].
  destruct (reachable_klass E 1 uo rz _ Hr) as [Hcl _ Hend _].
  split.
  - unfold unloaded at 1. rewrite <-(omap_single_worker _ _ Htr) by done.
    fold (unloaded (events_of (Worker 0) (trace (after E 1 uo rz sched)))).
    pose proof (worker_unloaded _ _ _ _ _ _ _ Hr Hl) as Hu.
    simpl in Hu. rewrite app_nil_r in Hu. rewrite Hu.
    unfold batches. rewrite (omap_single_worker _ _ Htr) by done.
    fold (batches (trace (after E 1 uo rz sched)).*2).
    rewrite Hbat, (Hep L_done Hin eq_refl). cbn [passed].
    rewrite <-(head_tail (code_cache E)) at 3. f_equal.
    unfold first_call. by destruct (head (code_cache E)).
  - intros Huo.
    unfold cleaned at 1. rewrite <-(omap_single_worker _ _ Htr) by done.
    fold (cleaned (events_of (Worker 0) (trace (after E 1 uo rz sched)))).
    pose proof (worker_cleaned _ _ _ _ _ _ _ Hr Hl) as Hc.
    simpl in Hc. rewrite app_nil_r in Hc. rewrite Hc.
    unfold claimed_klasses. rewrite (omap_single_worker _ _ Htr) by done.
    fold (claimed_klasses (trace (after E 1 uo rz sched)).*2).
    rewrite <-Hcl, (Hend L_done Hin eq_refl Huo). by rewrite app_nil_r.
Qed.

Lemma single_worker_in_order_witness :
  unloaded (trace (after env_ex 1 true false (round_robin 1 80))).*2
  = code_cache env_ex
  ∧ (true = true →
     cleaned (trace (after env_ex 1 true false (round_robin 1 80))).*2
     = instances (class_graph env_ex)).
Proof.
  apply (single_worker_in_order env_ex true false (round_robin 1 80)).
  - vm_compute. lia.
  - apply (bool_decide_unpack _). vm_compute. exact I.
  - vm_compute. reflexivity.
Defined.

(** ** The ids given to string deduplication *)

Lemma occurrences_singleton {A} `{EqDecision A} (x y : A) :
  occurrences x [y] = if decide (y = x) then 1 else 0.
Proof.
  unfold occurrences. case_decide.
  - by rewrite filter_cons_True.
  - by rewrite filter_cons_False.
Qed.

Lemma unlinks_app h1 h2 : unlinks (h1 ++ h2) = unlinks h1 ++ unlinks h2.
Proof. apply omap_app. Qed.

(** How often [parallel_unlink] has been called with the id [i]: once
    if worker [i] has returned from [StringDedupCleaningTask::work]. *)
Lemma unlinked_ids E N uo rz s i :
  reachable E N uo rz s →
  occurrences i (unlinks (trace s).*2)
  = match pcs s !! i with
    | Some l => if StringDedup_is_enabled E && dedup_returned l then 1 else 0
    | None => 0
    end.
Proof.
  induction 1 as [|s w l p' l' evs Hr IH Hl Hex] using reachable_ind.
  - rewrite init_trace.
    assert (occurrences i
              (unlinks (if StringDedup_is_enabled E
                        then [EvGcPrologue rz] else [])) = 0) as ->
      by (by destruct (StringDedup_is_enabled E)).
    change (pcs (init E N uo rz)) with (replicate N (work_entry E)).
    destruct (replicate N (work_entry E) !! i) as [l|] eqn:Hi; [|done].
    apply lookup_replicate in Hi as [-> _]. unfold work_entry.
    rewrite andb_comm. by destruct (INCLUDE_JVMCI E).
  - cbn [task pcs trace].
    rewrite fmap_app, snd_tagged, unlinks_app, occurrences_app, IH.
    clear IH. destruct (decide (i = w)) as [->|Hne].
    + rewrite list_lookup_insert_eq by (by eapply lookup_lt_Some).
      rewrite Hl.
      destruct l; exec_cases Hex;
        rewrite ?andb_false_r, ?andb_true_r, ?occurrences_singleton,
          ?decide_True by done;
        try done; by destruct (StringDedup_is_enabled E).
    + rewrite list_lookup_insert_ne by done.
      assert (occurrences i (unlinks evs) = 0) as ->; [|lia].
      destruct l; exec_cases Hex; try done.
      by rewrite occurrences_singleton, decide_False.
Qed.

(** X12: with string deduplication enabled, at every moment
    [parallel_unlink] has been called exactly once with the id of each
    worker that has returned from [StringDedupCleaningTask::work], and
    with no other id.  Whatever the [N] workers have done so far, they
    all return when each is given its turn; and when they all have
    returned, by whatever schedule, [parallel_unlink] has been called
    once with each of the ids [0] to [N - 1] and with no other id. *)
Theorem each_id_unlinked_once E N uo rz sched i :
  StringDedup_is_enabled E = true →
  occurrences i (unlinks (trace (after E N uo rz sched)).*2)
  = match pcs (after E N uo rz sched) !! i with
    | Some l => if dedup_returned l then 1 else 0
    | None => 0
    end
  ∧ (all_returned (after E N uo rz sched) = true →
     occurrences i (unlinks (trace (after E N uo rz sched)).*2)
     = if decide (i < N) then 1 else 0)
  ∧ (1 ≤ MaxClaimNmethods E → NoDup (code_cache E) →
     all_returned
       (after E N uo rz
          (sched ++ round_robin N (measure E (after E N uo rz sched)))) = true
     ∧ occurrences i
         (unlinks
            (trace (after E N uo rz
                      (sched ++ round_robin N
                                  (measure E (after E N uo rz sched))))).*2)
       = if decide (i < N) then 1 else 0).
Proof.
  intros Hen.
  assert (∀ s, reachable E N uo rz s → all_returned s = true →
            occurrences i (unlinks (trace s).*2)
            = if decide (i < N) then 1 else 0) as Hend.
  { intros s Hs Hall. rewrite (unlinked_ids _ _ _ _ _ i Hs), Hen.
    destruct (pcs s !! i) as [l|] eqn:Hl.
    - pose proof (all_returned_lookup _ _ _ Hall Hl) as ->.
      apply lookup_lt_Some in Hl.
      rewrite (reachable_length _ _ _ _ _ Hs) in Hl.
      by rewrite decide_True.
    - apply lookup_ge_None in Hl.
      rewrite (reachable_length _ _ _ _ _ Hs) in Hl.
      by rewrite decide_False by lia. }
  pose proof (reachable_run E N uo rz sched) as Hr.
  fold (after E N uo rz sched) in Hr.
  split_and!.
  - by rewrite (unlinked_ids _ _ _ _ _ i Hr), Hen.
  - by apply Hend.
  - intros HK Hnd.
    pose proof (pass_completes E N uo rz sched Hnd HK) as Hall.
    split; [done|]. apply Hend; [apply (reachable_run E N uo rz)|done].
Qed.

(** Four workers: under way, [parallel_unlink] has been called with the
    id of worker 0, which has returned from the string deduplication
    task, and not with that of worker 2, which has not; from there
    the pass comes to its end with one call for id 3; and at the end
    there is one call for id 3 and none for id 4. *)
Lemma each_id_unlinked_once_witness :
  (occurrences 0
     (unlinks (trace (after env_ex 4 true false (round_robin 4 14))).*2) = 1
   ∧ occurrences 2
       (unlinks (trace (after env_ex 4 true false (round_robin 4 14))).*2) = 0)
  ∧ (all_returned
       (after env_ex 4 true false
          (round_robin 4 14
           ++ round_robin 4
                (measure env_ex
                   (after env_ex 4 true false (round_robin 4 14))))) = true
     ∧ occurrences 3
         (unlinks
            (trace (after env_ex 4 true false
                      (round_robin 4 14
                       ++ round_robin 4
                            (measure env_ex
                               (after env_ex 4 true false
                                  (round_robin 4 14)))))).*2) = 1)
  ∧ (occurrences 3
       (unlinks (trace (after env_ex 4 true false (round_robin 4 60))).*2) = 1
     ∧ occurrences 4
         (unlinks (trace (after env_ex 4 true false (round_robin 4 60))).*2)
       = 0).
Proof.
  assert (NoDup (seq 0 10)) as Hnd
    by (apply (bool_decide_unpack _); vm_compute; exact I).
  split; [|split].
  - split.
    + destruct (each_id_unlinked_once env_ex 4 true false
                  (round_robin 4 14) 0 eq_refl) as (Hnow & _).
      rewrite Hnow. vm_compute. reflexivity.
    + destruct (each_id_unlinked_once env_ex 4 true false
                  (round_robin 4 14) 2 eq_refl) as (Hnow & _).
      rewrite Hnow. vm_compute. reflexivity.
  - destruct (each_id_unlinked_once env_ex 4 true false
                (round_robin 4 14) 3 eq_refl) as (_ & _ & Hprog).
    apply Hprog; [vm_compute; lia|exact Hnd].
  - split.
    + destruct (each_id_unlinked_once env_ex 4 true false
                  (round_robin 4 60) 3 eq_refl) as (_ & Hall & _).
      apply Hall. vm_compute. reflexivity.
    + destruct (each_id_unlinked_once env_ex 4 true false
                  (round_robin 4 60) 4 eq_refl) as (_ & Hall & _).
      apply Hall. vm_compute. reflexivity.
Defined.

(** ** A worker that is left alone *)

Lemma claim_nmethods_run_witness :
  let s := after env_ex 4 true false (round_robin 4 4) in
  let r := CodeCacheUnloadingTask.claim_nmethods env_ex
             (ParallelCleaningTask._code_cache_task (task s)) in
  run env_ex [1; 1] s
  = {| task := ParallelCleaningTask.set_code_cache_task (task s) r.2;
       pcs := <[1 := match r.1 with
                     | [] => L_pct_string_dedup
                     | _ :: _ => L_cc_unload r.1
                     end]> (pcs s);
       trace := trace s ++ [(Worker 1, EvClaimNmethods r.1)] |}.
Proof.
  apply (claim_nmethods_run env_ex 1
           (after env_ex 4 true false (round_robin 4 4))).
  vm_compute. reflexivity.
Defined.

Lemma claim_next_klass_run_witness :
  let s := after env_ex 4 true false (round_robin 4 17) in
  ∃ n,
    let kl := ParallelCleaningTask._klass_cleaning_task (task s) in
    let r := KlassCleaningTask.claim_next_klass
               (KlassCleaningTask._klass_iterator kl) in
    run env_ex (replicate n 1) s
    = {| task := ParallelCleaningTask.set_klass_cleaning_task (task s)
                   (KlassCleaningTask.set_klass_iterator kl r.2);
         pcs := <[1 := match r.1 with
                       | Some k => L_klass_clean k
                       | None => L_done
                       end]> (pcs s);
         trace := trace s ++ [(Worker 1, EvNextKlass r.1)] |}.
Proof.
  apply (claim_next_klass_run env_ex 1
           (after env_ex 4 true false (round_robin 4 17))).
  vm_compute. reflexivity.
Defined.
